(** * Tap Sprint backend (task-3/backend/server.js): a shallow embedding

    The server keeps two pieces of process-wide state, the [games] registry
    (a JS [Map] from game id to a game object) and the [recentGames] array,
    and reacts to socket events ([join_game], [start_game], [tap],
    [disconnect]), to the end-of-round timeout and to [GET /leaderboard].

    Each handler runs to completion on the single JS thread, so a handler is
    a function from the state (and the values it reads from the environment:
    [Date.now()], [Math.random()]) to the new state and the list of messages
    it sends.

    Conventions of the embedding:
    - JS numbers that hold tap counts and millisecond timestamps are [Z];
      the counters start at 0 and grow by one per accepted tap, the
      timestamps are around 2^41, all far inside the range where JS number
      arithmetic is exact integer arithmetic.
    - JS strings are [string]; a payload is an object whose fields are a
      string or absent.
    - [io.to(gameId).emit(...)] is recorded as a message sent to the room
      [gameId]; who is in the room ([socket.join]) belongs to socket.io and
      is not part of the state.
    - A JS [Map] is an association list in insertion order with the [Map]
      operations ([get], [set], [delete], [has], [size], iteration order).
    - [Array.prototype.sort] is a stable sort (ECMAScript 2019). *)

From Stdlib Require Import List String Ascii ZArith Lia Bool Arith.
From Stdlib Require Import Permutation Sorted.
Import ListNotations.

Local Open Scope string_scope.
Local Open Scope Z_scope.
Local Open Scope list_scope.

(* ================================================================== *)
(** ** JS library functions used by the server *)

(** [Map]: insertion-ordered, keys compared with [===] (here: strings). *)
Module JsMap.

Definition t (V : Type) : Type := list (string * V).

Definition empty {V} : t V := [].

Fixpoint get {V} (k : string) (m : t V) : option V :=
  match m with
  | [] => None
  | (k', v) :: m' => if String.eqb k' k then Some v else get k m'
  end.

Definition has {V} (k : string) (m : t V) : bool :=
  match get k m with Some _ => true | None => false end.

(** [set] on a present key replaces the value and keeps the entry's place
    in the iteration order; on an absent key it appends. *)
Fixpoint set {V} (k : string) (v : V) (m : t V) : t V :=
  match m with
  | [] => [(k, v)]
  | (k', v') :: m' =>
      if String.eqb k' k then (k, v) :: m' else (k', v') :: set k v m'
  end.

Fixpoint delete {V} (k : string) (m : t V) : t V :=
  match m with
  | [] => []
  | (k', v') :: m' =>
      if String.eqb k' k then m' else (k', v') :: delete k m'
  end.

Definition size {V} (m : t V) : nat := List.length m.

Definition keys {V} (m : t V) : list string := List.map fst m.

Definition values {V} (m : t V) : list V := List.map snd m.

(** Update every value in place (a [for ... of m.values()] loop that
    mutates each object). *)
Definition map_values {V} (f : V -> V) (m : t V) : t V :=
  List.map (fun kv => (fst kv, f (snd kv))) m.

End JsMap.

(** Index clamping of [slice(start, end)] on a sequence of length [len]. *)
Definition slice_index (len i : Z) : Z :=
  if i <? 0 then Z.max (len + i) 0 else Z.min i len.

(** [Array.prototype.slice(start, end)]; [None] is an omitted [end]. *)
Definition array_slice {A} (start : Z) (stop : option Z) (l : list A) : list A :=
  let len := Z.of_nat (List.length l) in
  let from := slice_index len start in
  let to := match stop with Some e => slice_index len e | None => len end in
  firstn (Z.to_nat (to - from)) (skipn (Z.to_nat from) l).

(** [String.prototype.slice(start, end)]. *)
Definition string_slice (start : Z) (stop : option Z) (s : string) : string :=
  let len := Z.of_nat (String.length s) in
  let from := slice_index len start in
  let to := match stop with Some e => slice_index len e | None => len end in
  String.substring (Z.to_nat from) (Z.to_nat (to - from)) s.

(** White space removed by [String.prototype.trim], among the code units
    below 256: TAB, LF, VT, FF, CR, SPACE and NBSP. *)
Definition is_white_space (c : ascii) : bool :=
  let n := nat_of_ascii c in
  ((9 <=? n) && (n <=? 13) || (n =? 32) || (n =? 160))%nat.

Fixpoint trim_start (s : string) : string :=
  match s with
  | EmptyString => EmptyString
  | String c s' => if is_white_space c then trim_start s' else s
  end.

Fixpoint trim_end (s : string) : string :=
  match s with
  | EmptyString => EmptyString
  | String c s' =>
      match trim_end s' with
      | EmptyString => if is_white_space c then EmptyString else String c EmptyString
      | r => String c r
      end
  end.

Definition trim (s : string) : string := trim_end (trim_start s).

(** [Number.prototype.toString(36)] on an integer. *)
Definition digit36 (d : N) : ascii :=
  if (d <? 10)%N then ascii_of_N (48 + d) else ascii_of_N (87 + d).

Fixpoint toString36_pos (fuel : nat) (n : N) (acc : string) : string :=
  match fuel with
  | O => acc
  | S fuel' =>
      let acc' := String (digit36 (n mod 36)) acc in
      if (n / 36 =? 0)%N then acc' else toString36_pos fuel' (n / 36) acc'
  end.

Definition toString36 (z : Z) : string :=
  let n := Z.abs_N z in
  let digits := toString36_pos (S (N.to_nat (N.log2 n))) n EmptyString in
  if z <? 0 then String "-" digits else digits.

(** [Array.prototype.sort(cmp)]: a stable sort; [cmp a b <= 0] keeps [a]
    before [b].  Insertion from the right keeps equal elements in their
    original order. *)
Section Sort.
Context {A : Type} (cmp : A -> A -> Z).

Fixpoint sort_insert (x : A) (l : list A) : list A :=
  match l with
  | [] => [x]
  | y :: l' => if cmp x y <=? 0 then x :: l else y :: sort_insert x l'
  end.

Fixpoint array_sort (l : list A) : list A :=
  match l with
  | [] => []
  | x :: l' => sort_insert x (array_sort l')
  end.
End Sort.

(** [x || d] on an optional string: absent and the empty string are falsy. *)
Definition or_default (x : option string) (d : string) : string :=
  match x with
  | Some s => if String.eqb s "" then d else s
  | None => d
  end.


(* ================================================================== *)
(** ** Configuration and in-memory state (server.js, lines 6-23) *)

Definition TAP_WINDOW_MS : Z := 15000.
Definition MAX_LEADERBOARD_GAMES : nat := 50.

Inductive Status : Type := lobby | running | ended.

Definition Status_eqb (a b : Status) : bool :=
  match a, b with
  | lobby, lobby | running, running | ended, ended => true
  | _, _ => false
  end.

(** A roster entry [{ playerId, username, socketId, taps }]. *)
Record Player : Type := mkPlayer {
  playerId : string;
  username : string;
  socketId : string;
  taps : Z;
}.

(** A game object.  [timeoutHandle] is the value returned by [setTimeout]
    (a fresh handle at every call) or [null]. *)
Record Game : Type := mkGame {
  status : Status;
  players : JsMap.t Player;
  startTime : option Z;
  endTime : option Z;
  timeoutHandle : option nat;
}.

(** A score line [{ playerId, username, taps }] of a result. *)
Record Score : Type := mkScore {
  s_playerId : string;
  s_username : string;
  s_taps : Z;
}.

(** An item of [recentGames]. *)
Record RecentGame : Type := mkRecentGame {
  gameId : string;
  timestamp : Z;
  winner : option Score;
  scores : list Score;
}.

(** A line of the flattened leaderboard. *)
Record Row : Type := mkRow {
  r_username : string;
  r_taps : Z;
  r_gameId : string;
  r_timestamp : Z;
}.

(** The process state: the two module-level variables and the pending
    timeouts of the event loop.  A pending timeout is its handle and the game
    id its callback closes over (the callback's [game] is the object
    registered under that id: games are never removed from [games]). *)
Record State : Type := mkState {
  games : JsMap.t Game;
  recentGames : list RecentGame;
  timers : list (nat * string);
  nextHandle : nat;
}.

Definition initial_state : State :=
  {| games := JsMap.empty; recentGames := []; timers := []; nextHandle := 0 |}.

(** *** Messages sent by the handlers *)

Inductive ErrorCode : Type :=
  | username_required
  | game_already_started
  | already_running
  | no_players
  | internal_error.

Inductive AckPayload : Type :=
  | AckError (error : ErrorCode)
  | AckJoined (pid gid : string)
  | AckStarted (gid : string) (start durationMs : Z).

Inductive Message : Type :=
  | lobby_update (gid : string) (roster : list (string * string))
  | game_start (gid : string) (start durationMs : Z)
  | tap_update (gid pid : string) (count : Z)
  | game_results (gid : string) (start stop : option Z) (durationMs : Z)
      (ranked : list Score) (first : option Score).

Inductive Output : Type :=
  | Ack (sock : string) (a : AckPayload)
  | Emit (room : string) (m : Message)
  | Json (top : list Row) (recent : list RecentGame).

(** [if (typeof ack === 'function') ack(a)] *)
Definition send_ack (ack : bool) (sock : string) (a : AckPayload) : list Output :=
  if ack then [Ack sock a] else [].

(* ================================================================== *)
(** ** Helpers (server.js, lines 25-73) *)

Definition new_game : Game :=
  {| status := lobby; players := JsMap.empty; startTime := None;
     endTime := None; timeoutHandle := None |}.

(** Returns the registry after the call and the game found or created. *)
Definition createGameIfMissing (gid : string) (gs : JsMap.t Game)
  : JsMap.t Game * Game :=
  match JsMap.get gid gs with
  | Some g => (gs, g)
  | None => (JsMap.set gid new_game gs, new_game)
  end.

(** [generateId(prefix)].  [rnd] is the string [Math.random().toString(36)]
    and [now] the value of [Date.now()] read by the call. *)
Definition generateId (prefix : string) (rnd : string) (now : Z) : string :=
  (prefix ++ "_" ++ string_slice 2 (Some 10) rnd
          ++ string_slice (-4) None (toString36 now))%string.

Definition score_of (p : Player) : Score :=
  {| s_playerId := playerId p; s_username := username p; s_taps := taps p |}.

Definition by_taps_desc (a b : Score) : Z := s_taps b - s_taps a.

Definition computeResults (game : Game) : list Score * option Score :=
  let scores :=
    array_sort by_taps_desc (List.map score_of (JsMap.values (players game))) in
  let winner := List.hd_error scores in
  (scores, winner).

(** [push] the new item, then [shift] when the array grew beyond the
    capacity. *)
Definition recordGameToLeaderboard (gid : string) (game : Game) (now : Z)
    (recent : list RecentGame) : list RecentGame :=
  let (scores, winner) := computeResults game in
  let recent' :=
    recent ++ [ {| gameId := gid; timestamp := now;
                   winner := winner; scores := scores |} ] in
  if (MAX_LEADERBOARD_GAMES <? List.length recent')%nat
  then List.tl recent' else recent'.

Definition rows_of (g : RecentGame) : list Row :=
  List.map (fun s => {| r_username := s_username s; r_taps := s_taps s;
                        r_gameId := gameId g; r_timestamp := timestamp g |})
           (scores g).

Definition allScores (recent : list RecentGame) : list Row :=
  List.flat_map rows_of recent.

(** [b.taps - a.taps || a.timestamp - b.timestamp] *)
Definition by_taps_then_time (a b : Row) : Z :=
  if r_taps b - r_taps a =? 0 then r_timestamp a - r_timestamp b
  else r_taps b - r_taps a.

Definition buildLeaderboardTopN (n : Z) (recent : list RecentGame) : list Row :=
  array_slice 0 (Some n) (array_sort by_taps_then_time (allScores recent)).

Definition roster_view (game : Game) : list (string * string) :=
  List.map (fun p => (playerId p, username p)) (JsMap.values (players game)).

(* ================================================================== *)
(** ** Event handlers (server.js, lines 85-247) *)

Definition with_games (s : State) (gs : JsMap.t Game) : State :=
  {| games := gs; recentGames := recentGames s;
     timers := timers s; nextHandle := nextHandle s |}.

Definition with_players (game : Game) (ps : JsMap.t Player) : Game :=
  {| status := status game; players := ps; startTime := startTime game;
     endTime := endTime game; timeoutHandle := timeoutHandle game |}.

Definition with_status (game : Game) (st : Status) : Game :=
  {| status := st; players := players game; startTime := startTime game;
     endTime := endTime game; timeoutHandle := timeoutHandle game |}.

Definition with_taps (p : Player) (n : Z) : Player :=
  {| playerId := playerId p; username := username p;
     socketId := socketId p; taps := n |}.

(** [clearTimeout(h)]: the timeout, if still pending, is dropped. *)
Definition clearTimeout (h : nat) (ts : list (nat * string)) : list (nat * string) :=
  List.filter (fun t => negb (Nat.eqb (fst t) h)) ts.

(** [socket.on('join_game', (payload, ack) => ...)] on the socket [sock];
    [p_username] and [p_gameId] are the payload's fields. *)
Definition on_join_game (sock : string) (p_username p_gameId : option string)
    (ack : bool) (rnd : string) (now : Z) (s : State) : State * list Output :=
  let name := trim (or_default p_username "") in
  let gid := or_default p_gameId "default" in
  if String.eqb name "" then
    (s, send_ack ack sock (AckError username_required))
  else
    let (gs, game) := createGameIfMissing gid (games s) in
    match status game with
    | lobby =>
        let pid := generateId "player" rnd now in
        let entry := {| playerId := pid; username := name;
                        socketId := sock; taps := 0 |} in
        let game' := with_players game (JsMap.set pid entry (players game)) in
        (with_games s (JsMap.set gid game' gs),
         Emit gid (lobby_update gid (roster_view game'))
           :: send_ack ack sock (AckJoined pid gid))
    | _ =>
        (with_games s gs, send_ack ack sock (AckError game_already_started))
    end.

(** [socket.on('start_game', (payload, ack) => ...)] *)
Definition on_start_game (sock : string) (p_gameId : option string)
    (ack : bool) (now : Z) (s : State) : State * list Output :=
  let gid := or_default p_gameId "default" in
  let (gs, game) := createGameIfMissing gid (games s) in
  if Status_eqb (status game) running then
    (with_games s gs, send_ack ack sock (AckError already_running))
  else if Nat.eqb (JsMap.size (players game)) 0 then
    (with_games s gs, send_ack ack sock (AckError no_players))
  else
    let ps := JsMap.map_values (fun p => with_taps p 0) (players game) in
    let ts := match timeoutHandle game with
              | Some h => clearTimeout h (timers s)
              | None => timers s
              end in
    let h := nextHandle s in
    let game' := {| status := running; players := ps;
                    startTime := Some now;
                    endTime := Some (now + TAP_WINDOW_MS);
                    timeoutHandle := Some h |} in
    ({| games := JsMap.set gid game' gs; recentGames := recentGames s;
        timers := ts ++ [(h, gid)]; nextHandle := S h |},
     Emit gid (game_start gid now TAP_WINDOW_MS)
       :: send_ack ack sock (AckStarted gid now TAP_WINDOW_MS)).

(** The callback armed by [start_game] (lines 175-190), run for the game
    registered under [gid]; [now] is read by [recordGameToLeaderboard]. *)
Definition endNow (gid : string) (now : Z) (s : State) : State * list Output :=
  match JsMap.get gid (games s) with
  | None => (s, [])
  | Some game =>
      let game' := with_status game ended in
      let (ranked, first) := computeResults game' in
      ({| games := JsMap.set gid game' (games s);
          recentGames := recordGameToLeaderboard gid game' now (recentGames s);
          timers := timers s; nextHandle := nextHandle s |},
       [Emit gid (game_results gid (startTime game') (endTime game')
                    TAP_WINDOW_MS ranked first)])
  end.

(** The event loop fires the pending timeout [h]; a handle that is not
    pending (cleared, or fired before) fires nothing.  The delay
    ([TAP_WINDOW_MS + 5]) is not modelled: a pending timeout may fire at any
    time. *)
Definition on_timeout (h : nat) (now : Z) (s : State) : State * list Output :=
  match List.find (fun t => Nat.eqb (fst t) h) (timers s) with
  | None => (s, [])
  | Some (_, gid) =>
      endNow gid now
        {| games := games s; recentGames := recentGames s;
           timers := clearTimeout h (timers s); nextHandle := nextHandle s |}
  end.

(** [socket.on('tap', (payload) => ...)] *)
Definition on_tap (sock : string) (p_gameId p_playerId : option string)
    (now : Z) (s : State) : State * list Output :=
  let gid := or_default p_gameId "default" in
  let pid := or_default p_playerId "" in
  match JsMap.get gid (games s) with
  | None => (s, [])
  | Some game =>
      if negb (Status_eqb (status game) running) then (s, [])
      else
        match startTime game, endTime game with
        | Some st, Some en =>
            if (now <? st) || (now >? en) then (s, [])
            else
              match JsMap.get pid (players game) with
              | None => (s, [])
              | Some player =>
                  if negb (String.eqb (socketId player) sock) then (s, [])
                  else
                    let player' := with_taps player (taps player + 1) in
                    let game' :=
                      with_players game (JsMap.set pid player' (players game)) in
                    (with_games s (JsMap.set gid game' (games s)),
                     [Emit gid (tap_update gid pid (taps player'))])
              end
        | _, _ => (s, [])
        end
  end.

(** The inner loop of [disconnect]: the key of the first roster entry
    recorded for [sock], or [null]. *)
Definition find_removed (sock : string) (ps : JsMap.t Player) : option string :=
  match List.find (fun kv => String.eqb (socketId (snd kv)) sock) ps with
  | Some (pid, _) => Some pid
  | None => None
  end.

(** One turn of the outer loop of [disconnect]; [if (removed)] is false for
    [null] and for the empty string. *)
Definition disconnect_game (sock gid : string) (game : Game) : Game * list Output :=
  match find_removed sock (players game) with
  | None => (game, [])
  | Some pid =>
      if String.eqb pid "" then (game, [])
      else
        let game' := with_players game (JsMap.delete pid (players game)) in
        (game', [Emit gid (lobby_update gid (roster_view game'))])
  end.

(** [socket.on('disconnect', () => ...)] *)
Definition on_disconnect (sock : string) (s : State) : State * list Output :=
  (with_games s
     (List.map (fun kv => (fst kv, fst (disconnect_game sock (fst kv) (snd kv))))
               (games s)),
   List.flat_map (fun kv => snd (disconnect_game sock (fst kv) (snd kv)))
                 (games s)).

(** [app.get('/leaderboard', ...)] *)
Definition on_get_leaderboard (s : State) : State * list Output :=
  (s, [Json (buildLeaderboardTopN 10 (recentGames s))
            (array_slice (-10) None (recentGames s))]).

(** *** The server as a transition system *)

Inductive Event : Type :=
  | join_game (sock : string) (p_username p_gameId : option string)
      (ack : bool) (rnd : string) (now : Z)
  | start_game (sock : string) (p_gameId : option string) (ack : bool) (now : Z)
  | tap (sock : string) (p_gameId p_playerId : option string) (now : Z)
  | disconnect (sock : string)
  | timeout (h : nat) (now : Z)
  | get_leaderboard.

Definition step (s : State) (ev : Event) : State * list Output :=
  match ev with
  | join_game sock u g ack rnd now => on_join_game sock u g ack rnd now s
  | start_game sock g ack now => on_start_game sock g ack now s
  | tap sock g p now => on_tap sock g p now s
  | disconnect sock => on_disconnect sock s
  | timeout h now => on_timeout h now s
  | get_leaderboard => on_get_leaderboard s
  end.

(** The state after a sequence of events, with everything sent on the way. *)
Fixpoint run (s : State) (evs : list Event) : State * list Output :=
  match evs with
  | [] => (s, [])
  | ev :: evs' =>
      let (s1, out1) := step s ev in
      let (s2, out2) := run s1 evs' in
      (s2, out1 ++ out2)
  end.

Inductive reachable : State -> Prop :=
  | reachable_init : reachable initial_state
  | reachable_step s ev : reachable s -> reachable (fst (step s ev)).

(* ================================================================== *)
(** ** Vocabulary of the properties *)

(** The game registered under [gid], if any. *)
Definition room (gid : string) (s : State) : option Game :=
  JsMap.get gid (games s).

(** The tap count of player [pid] of game [gid], if both exist. *)
Definition score (gid pid : string) (s : State) : option Z :=
  match room gid s with
  | Some game => option_map taps (JsMap.get pid (players game))
  | None => None
  end.

(** The conditions under which a tap sent on [sock] for ([gid], [pid]) and
    processed at server time [t] counts. *)
Definition tap_counts (sock gid pid : string) (t : Z) (s : State) : Prop :=
  exists game player st en,
    room gid s = Some game /\
    status game = running /\
    startTime game = Some st /\ endTime game = Some en /\
    st <= t <= en /\
    JsMap.get pid (players game) = Some player /\
    socketId player = sock.

(** *** Starting a round *)

(** One player waits in the lobby of the default game. *)
Definition one_player_lobby : State :=
  fst (run initial_state
         [join_game "s1" (Some "Alice") None true "0.k3j9x0w2abc" 1730563200000]).

(** A game is running with nobody in it after its only player left. *)
Definition running_empty_state : State :=
  fst (run initial_state
         [join_game "s1" (Some "Alice") None true "0.k3j9x0w2abc" 1730563200000;
          start_game "s1" None true 1730563201000;
          disconnect "s1"]).

(** [start_game] succeeded: it broadcast the start signal. *)
Definition start_succeeds (out : list Output) : Prop :=
  exists gid st d, In (Emit gid (game_start gid st d)) out.

(** *** Results *)

(** [a] ranks no lower than [b]. *)
Definition score_ge (a b : Score) : Prop := s_taps a >= s_taps b.

Definition has_taps (k : Z) (a : Score) : bool := s_taps a =? k.

(** The roster in [Map] order, as score lines. *)
Definition roster_scores (game : Game) : list Score :=
  List.map score_of (JsMap.values (players game)).

(** *** Leaderboard history *)

(** The item that [recordGameToLeaderboard] pushes. *)
Definition result_record (gid : string) (game : Game) (now : Z) : RecentGame :=
  {| gameId := gid; timestamp := now;
     winner := snd (computeResults game); scores := fst (computeResults game) |}.

(** A sequence of [recordGameToLeaderboard] calls, oldest first. *)
Definition record_all (calls : list (string * Game * Z)) (recent : list RecentGame)
  : list RecentGame :=
  fold_left
    (fun acc c => recordGameToLeaderboard (fst (fst c)) (snd (fst c)) (snd c) acc)
    calls recent.

Definition records_of (calls : list (string * Game * Z)) : list RecentGame :=
  List.map (fun c => result_record (fst (fst c)) (snd (fst c)) (snd c)) calls.

(** *** Leaderboard view *)

(** [a] comes no later than [b] on the leaderboard: more taps, or the same
    taps in a game recorded no later. *)
Definition row_le (a b : Row) : Prop :=
  r_taps a > r_taps b \/ (r_taps a = r_taps b /\ r_timestamp a <= r_timestamp b).

(** *** How one event changes one game *)

Definition game_or_new (r : option Game) : Game :=
  match r with Some g => g | None => new_game end.

(** What an event can do to the game registered (or not) under [gid]. *)
Inductive room_change (s : State) (gid : string) (r : option Game)
  : Event -> option Game -> Prop :=
  | rc_same ev : room_change s gid r ev r
  | rc_created sock g ack now :
      r = None -> or_default g "default" = gid ->
      room_change s gid r (start_game sock g ack now) (Some new_game)
  | rc_joined sock u g ack rnd now :
      or_default g "default" = gid ->
      trim (or_default u "") <> "" ->
      status (game_or_new r) = lobby ->
      room_change s gid r (join_game sock u g ack rnd now)
        (Some (with_players (game_or_new r)
                 (JsMap.set (generateId "player" rnd now)
                    {| playerId := generateId "player" rnd now;
                       username := trim (or_default u "");
                       socketId := sock; taps := 0 |}
                    (players (game_or_new r)))))
  | rc_started sock g ack now game :
      r = Some game -> or_default g "default" = gid ->
      status game <> running -> JsMap.size (players game) <> 0%nat ->
      room_change s gid r (start_game sock g ack now)
        (Some {| status := running;
                 players := JsMap.map_values (fun p => with_taps p 0) (players game);
                 startTime := Some now;
                 endTime := Some (now + TAP_WINDOW_MS);
                 timeoutHandle := Some (nextHandle s) |})
  | rc_tapped sock g p now game player :
      r = Some game -> or_default g "default" = gid ->
      tap_counts sock gid (or_default p "") now s ->
      JsMap.get (or_default p "") (players game) = Some player ->
      room_change s gid r (tap sock g p now)
        (Some (with_players game
                 (JsMap.set (or_default p "")
                    (with_taps player (taps player + 1)) (players game))))
  | rc_disconnected sock game :
      r = Some game ->
      room_change s gid r (disconnect sock)
        (Some (fst (disconnect_game sock gid game)))
  | rc_ended h h' now game :
      r = Some game ->
      List.find (fun t => Nat.eqb (fst t) h) (timers s) = Some (h', gid) ->
      room_change s gid r (timeout h now) (Some (with_status game ended)).

(** *** Joining *)

Definition is_join (ev : Event) : Prop :=
  match ev with join_game _ _ _ _ _ _ => True | _ => False end.

(** A join aimed at [gid] with a name that is not blank: the joins that a
    game in the lobby accepts. *)
Definition join_passes (gid : string) (u g : option string) : bool :=
  String.eqb (or_default g "default") gid
  && negb (String.eqb (trim (or_default u "")) "").

(** The ids that [generateId] returns to the joins of [evs] that the game
    [gid], in the lobby, accepts. *)
Fixpoint accepted_ids (gid : string) (evs : list Event) : list string :=
  match evs with
  | [] => []
  | join_game _ u g _ rnd now :: evs' =>
      if join_passes gid u g
      then generateId "player" rnd now :: accepted_ids gid evs'
      else accepted_ids gid evs'
  | _ :: evs' => accepted_ids gid evs'
  end.

(** The roster broadcasts sent to the game [gid]. *)
Definition is_roster_update (gid : string) (o : Output) : bool :=
  match o with
  | Emit _ (lobby_update g _) => String.eqb g gid
  | _ => false
  end.

Definition roster_updates (gid : string) (out : list Output) : list Output :=
  filter (is_roster_update gid) out.

(** Two connections join at the same millisecond and draw the same random
    number. *)
Definition colliding_joins : list Event :=
  [join_game "s1" (Some "Alice") None true "0.k3j9x0w2abc" 1730563200000;
   join_game "s2" (Some "Bob") None true "0.k3j9x0w2abc" 1730563200000].

(** *** Rosters of reachable states *)

(** The roster is a [Map]: its keys are distinct; and they are ids made by
    [generateId], so none is the empty string. *)
Definition roster_ok (game : Game) : Prop :=
  NoDup (JsMap.keys (players game)) /\
  forall pid, In pid (JsMap.keys (players game)) -> pid <> "".

Definition rosters_ok (s : State) : Prop :=
  forall gid game, room gid s = Some game -> roster_ok game.

(** *** Connections and roster entries *)

(** The socket ids recorded in a roster, in [Map] order. *)
Definition handles (game : Game) : list string :=
  List.map socketId (JsMap.values (players game)).

(** Every connection has at most one entry in the roster. *)
Definition handle_unique (game : Game) : Prop := NoDup (handles game).

Definition handles_unique (s : State) : Prop :=
  forall gid game, room gid s = Some game -> handle_unique game.



(** The list without its first element that satisfies [p]. *)
Fixpoint remove_first {A} (p : A -> bool) (l : list A) : list A :=
  match l with
  | [] => []
  | x :: l' => if p x then l' else x :: remove_first p l'
  end.

Definition on_socket (sock : string) (kv : string * Player) : bool :=
  String.eqb (socketId (snd kv)) sock.



(** *** Timers *)

(** The game keeps its phase: same status and timeout handle; a game that
    appears is in the lobby without a handle. *)
Definition same_phase (r r' : option Game) : Prop :=
  match r' with
  | Some g' =>
      status g' = status (game_or_new r) /\
      timeoutHandle g' = timeoutHandle (game_or_new r)
  | None => r = None
  end.

(** The three kinds of steps, seen from the timers. *)
Inductive step_kind (s s' : State) : Prop :=
  | quiet_step :
      timers s' = timers s -> nextHandle s' = nextHandle s ->
      (forall gid, same_phase (room gid s) (room gid s')) ->
      step_kind s s'
  | start_step gid0 game0 game0' :
      room gid0 s = Some game0 -> status game0 <> running ->
      room gid0 s' = Some game0' -> status game0' = running ->
      timeoutHandle game0' = Some (nextHandle s) ->
      timers s' =
        match timeoutHandle game0 with
        | Some h => clearTimeout h (timers s)
        | None => timers s
        end ++ [(nextHandle s, gid0)] ->
      nextHandle s' = S (nextHandle s) ->
      (forall gid, gid <> gid0 -> room gid s' = room gid s) ->
      step_kind s s'
  | fire_step h gid0 :
      List.find (fun t => Nat.eqb (fst t) h) (timers s) = Some (h, gid0) ->
      timers s' = clearTimeout h (timers s) ->
      nextHandle s' = nextHandle s ->
      room gid0 s' = option_map (fun g => with_status g ended) (room gid0 s) ->
      (forall gid, gid <> gid0 -> room gid s' = room gid s) ->
      step_kind s s'.

(** The timer discipline of reachable states. *)
Record timers_ok (s : State) : Prop := {
  (** handles in use were returned by earlier [setTimeout] calls *)
  t_fresh : forall h gid, In (h, gid) (timers s) -> (h < nextHandle s)%nat;
  t_handle_fresh : forall gid game h,
      room gid s = Some game -> timeoutHandle game = Some h ->
      (h < nextHandle s)%nat;
  (** a handle is pending at most once *)
  t_nodup : NoDup (List.map fst (timers s));
  (** a pending timeout belongs to a running game, which holds its handle *)
  t_owner : forall h gid,
      In (h, gid) (timers s) ->
      exists game, room gid s = Some game /\ status game = running /\
                   timeoutHandle game = Some h;
  (** the timeout of a running game is pending *)
  t_armed : forall gid game,
      room gid s = Some game -> status game = running ->
      exists h, timeoutHandle game = Some h /\ In (h, gid) (timers s);
  (** games do not share handles *)
  t_distinct : forall gid1 gid2 g1 g2 h,
      room gid1 s = Some g1 -> room gid2 s = Some g2 ->
      timeoutHandle g1 = Some h -> timeoutHandle g2 = Some h -> gid1 = gid2;
}.

(** *** The end of a round *)


(** Alice joined the default game and started it. *)
Definition one_player_running : State :=
  fst (run initial_state
         [join_game "s1" (Some "Alice") None true "0.k3j9x0w2abc" 1730563200000;
          start_game "s1" None true 1730563201000]).

(** *** The scoring window of a game *)

(** [startTime] and [endTime] are both [null], in the lobby, or both set and
    [TAP_WINDOW_MS] apart. *)
Definition window_ok (game : Game) : Prop :=
  match startTime game, endTime game with
  | None, None => status game = lobby
  | Some st, Some en => status game <> lobby /\ en = st + TAP_WINDOW_MS
  | _, _ => False
  end.

(** *** The game an event is about *)

(** The game id a [join_game], [start_game] or [tap] names, and the game of
    the timeout that fires; [disconnect] and the leaderboard request name no
    game. *)
Definition target (s : State) (ev : Event) : option string :=
  match ev with
  | join_game _ _ g _ _ _ => Some (or_default g "default")
  | start_game _ g _ _ => Some (or_default g "default")
  | tap _ g _ _ => Some (or_default g "default")
  | timeout h _ =>
      option_map snd (List.find (fun t => Nat.eqb (fst t) h) (timers s))
  | disconnect _ => None
  | get_leaderboard => None
  end.

(** *** Messages *)

(** The [tap_update] broadcasts for player [pid] of game [gid]. *)
Definition is_tap_update (gid pid : string) (o : Output) : bool :=
  match o with
  | Emit _ (tap_update g p _) => String.eqb g gid && String.eqb p pid
  | _ => false
  end.

Definition tap_updates (gid pid : string) (out : list Output) : list Output :=
  filter (is_tap_update gid pid) out.

(** Events that add no player, remove none and start no round. *)
Definition keeps_rosters (ev : Event) : Prop :=
  match ev with
  | tap _ _ _ _ | timeout _ _ | get_leaderboard => True
  | _ => False
  end.

(** The [gameId] field of a message. *)
Definition message_gameId (m : Message) : string :=
  match m with
  | lobby_update gid _ => gid
  | game_start gid _ _ => gid
  | tap_update gid _ _ => gid
  | game_results gid _ _ _ _ _ => gid
  end.

(** The acknowledgements among the messages sent. *)
Definition acks (out : list Output) : list Output :=
  filter (fun o => match o with Ack _ _ => true | _ => false end) out.

(** *** Items of the history *)

(** The ranking of a record is sorted and its winner is the first line. *)
Definition record_ok (r : RecentGame) : Prop :=
  StronglySorted score_ge (scores r) /\ winner r = List.hd_error (scores r).

(** The leaderboard line made of the score line [sc] of the record [g]. *)
Definition row_of (g : RecentGame) (sc : Score) : Row :=
  {| r_username := s_username sc; r_taps := s_taps sc;
     r_gameId := gameId g; r_timestamp := timestamp g |}.

(** Alice played a round of the default game alone and tapped once. *)
Definition one_round_played : State :=
  fst (run one_player_running
         [tap "s1" None (Some "player_k3j9x0w2nb40") 1730563202000;
          timeout 0%nat 1730563216005]).

(** *** Roster entries *)

(** The string starts with a white space character. *)
Definition starts_white (s : string) : bool :=
  match s with
  | EmptyString => false
  | String c _ => is_white_space c
  end.

(** A roster entry as [join_game] makes it and the other handlers keep it:
    filed under its own [playerId], which is ["player_"] followed by at most
    twelve characters; a tap count that is not negative; a name that is not
    empty and has no white space at either end. *)
Definition entry_ok (pid : string) (p : Player) : Prop :=
  playerId p = pid
  /\ String.prefix "player_" pid = true
  /\ (String.length pid <= 19)%nat
  /\ 0 <= taps p
  /\ username p <> ""
  /\ trim (username p) = username p.

Definition entries_ok (game : Game) : Prop :=
  forall pid p, In (pid, p) (players game) -> entry_ok pid p.

(** The connection [sock] has an entry in the roster of some game. *)
Definition joined (sock : string) (s : State) : Prop :=
  exists gid game, room gid s = Some game /\ In sock (handles game).

(** *** Base-36 digits *)

(** The [k] lowest base-36 digits of [n], highest first. *)
Fixpoint digits36 (k : nat) (n : N) : string :=
  match k with
  | O => EmptyString
  | S k' => (digits36 k' (n / 36) ++ String (digit36 (n mod 36)) EmptyString)%string
  end.

(** *** Ranking and join order *)

(** A line of the ranking: (playerId, displayName, score). *)
Definition Line : Type := (string * string * Z)%type.

Definition line_taps (l : Line) : Z := snd l.

(** The line that a ranking entry shows and the line that a roster entry is
    due. *)
Definition line_of_score (a : Score) : Line :=
  (s_playerId a, s_username a, s_taps a).

Definition line_of_player (p : Player) : Line :=
  (playerId p, username p, taps p).

(** The roster in [Map] order, as lines. *)
Definition roster_lines (game : Game) : list Line :=
  List.map line_of_player (JsMap.values (players game)).

Definition with_taps_of (k : Z) (l : Line) : bool := line_taps l =? k.

(** Who holds a roster entry: its key, display name and connection. *)
Definition entry_holder (kv : string * Player) : string * string * string :=
  (fst kv, username (snd kv), socketId (snd kv)).

(** What an event does to the order of a roster.  The holders stay as they
    are and where they are; or an accepted join under an id that the roster
    does not hold is put at the end; or a disconnect takes one entry out; or
    an accepted join under an id that the roster holds takes the place of
    the entry with that id. *)
Inductive roster_order (ev : Event) (g g' : Game) : Prop :=
  | ro_kept :
      List.map entry_holder (players g') = List.map entry_holder (players g) ->
      roster_order ev g g'
  | ro_appended sock u gid ack rnd now :
      ev = join_game sock u gid ack rnd now ->
      JsMap.get (generateId "player" rnd now) (players g) = None ->
      players g'
      = players g
        ++ [(generateId "player" rnd now,
             {| playerId := generateId "player" rnd now;
                username := trim (or_default u "");
                socketId := sock; taps := 0 |})] ->
      roster_order ev g g'
  | ro_removed sock before e after :
      ev = disconnect sock ->
      players g = before ++ e :: after ->
      players g' = before ++ after ->
      roster_order ev g g'
  | ro_replaced sock u gid ack rnd now before old after :
      ev = join_game sock u gid ack rnd now ->
      players g = before ++ (generateId "player" rnd now, old) :: after ->
      players g'
      = before
        ++ (generateId "player" rnd now,
            {| playerId := generateId "player" rnd now;
               username := trim (or_default u "");
               socketId := sock; taps := 0 |}) :: after ->
      roster_order ev g g'.

(** Alice, Bob and Carol join the default game in this order; Carol's join
    draws the random number and the millisecond of Alice's.  The round is
    started and its timer fires. *)
Definition late_join_collides : list Event :=
  [join_game "s1" (Some "Alice") None true "0.k3j9x0w2abc" 1730563200000;
   join_game "s2" (Some "Bob") None true "0.7fq2m1c9xyz" 1730563200000;
   join_game "s3" (Some "Carol") None true "0.k3j9x0w2abc" 1730563200000;
   start_game "s1" None true 1730563201000;
   timeout 0 1730563216005].

(** Alice, Bob and Carol join under three ids; the round is started and Bob
    taps once. *)
Definition three_players_run : list Event :=
  [join_game "s1" (Some "Alice") None true "0.k3j9x0w2abc" 1730563200000;
   join_game "s2" (Some "Bob") None true "0.7fq2m1c9xyz" 1730563200000;
   join_game "s3" (Some "Carol") None true "0.4hd81kz0pqr" 1730563200000;
   start_game "s1" None true 1730563201000;
   tap "s2" None (Some (generateId "player" "0.7fq2m1c9xyz" 1730563200000))
     1730563202000].

(* ================================================================== *)
(** ** Facts about the JS [Map] model *)

Module JsMapFacts.
Import JsMap.

Section Facts.
Context {V : Type}.
Implicit Types (m : t V) (k : string) (v : V).

Lemma get_set_same k v m : get k (set k v m) = Some v.
Proof.
  induction m as [|[k' v'] m IH]; simpl.
  - now rewrite String.eqb_refl.
  - destruct (String.eqb k' k) eqn:E; simpl.
    + now rewrite String.eqb_refl.
    + now rewrite E.
Qed.

Lemma get_set_other k k' v m : k <> k' -> get k' (set k v m) = get k' m.
Proof.
  intros Hne. induction m as [|[k0 v0] m IH]; simpl.
  - destruct (String.eqb_spec k k'); congruence.
  - destruct (String.eqb_spec k0 k) as [->|Hk]; simpl.
    + destruct (String.eqb_spec k k'); congruence.
    + destruct (String.eqb_spec k0 k'); congruence.
Qed.

Lemma get_set k k' v m :
  get k' (set k v m) = if String.eqb k k' then Some v else get k' m.
Proof.
  destruct (String.eqb_spec k k') as [->|Hne].
  - apply get_set_same.
  - now apply get_set_other.
Qed.

(** [set] on a present key keeps the keys and their order. *)
Lemma keys_set_present k v m :
  get k m <> None -> keys (set k v m) = keys m.
Proof.
  induction m as [|[k' v'] m IH]; simpl; intros H.
  - congruence.
  - destruct (String.eqb_spec k' k) as [->|Hk]; simpl.
    + reflexivity.
    + f_equal. now apply IH.
Qed.

(** [set] on an absent key appends the entry. *)
Lemma set_absent k v m : get k m = None -> set k v m = m ++ [(k, v)].
Proof.
  induction m as [|[k' v'] m IH]; simpl; intros H.
  - reflexivity.
  - destruct (String.eqb k' k); [discriminate|].
    f_equal. now apply IH.
Qed.

Lemma size_set_present k v m : get k m <> None -> size (set k v m) = size m.
Proof.
  intros H. apply keys_set_present with (v := v) in H.
  unfold size, keys in *.
  now rewrite <- (length_map fst (set k v m)), H, length_map.
Qed.

Lemma get_None_keys k m : get k m = None <-> ~ In k (keys m).
Proof.
  induction m as [|[k' v'] m IH]; simpl.
  - tauto.
  - destruct (String.eqb_spec k' k) as [->|Hk].
    + split; [discriminate | tauto].
    + rewrite IH. tauto.
Qed.

Lemma get_In k v m : get k m = Some v -> In (k, v) m.
Proof.
  induction m as [|[k' v'] m IH]; simpl; [discriminate|].
  destruct (String.eqb_spec k' k) as [->|Hk].
  - intros [= ->]. now left.
  - intros H. right. now apply IH.
Qed.

Lemma In_get k v m : NoDup (keys m) -> In (k, v) m -> get k m = Some v.
Proof.
  induction m as [|[k' v'] m IH]; simpl; [tauto|].
  intros Hnd [H|H]; inversion Hnd as [|? ? Hnotin Hnd']; subst.
  - injection H as -> ->. now rewrite String.eqb_refl.
  - destruct (String.eqb_spec k' k) as [->|Hk].
    + exfalso. apply Hnotin. change k with (fst (k, v)).
      now apply in_map.
    + now apply IH.
Qed.

Lemma keys_delete_subset k m x : In x (keys (delete k m)) -> In x (keys m).
Proof.
  induction m as [|[k' v'] m IH]; simpl; [tauto|].
  destruct (String.eqb k' k); simpl; tauto.
Qed.

Lemma NoDup_keys_delete k m : NoDup (keys m) -> NoDup (keys (delete k m)).
Proof.
  induction m as [|[k' v'] m IH]; simpl; intros Hnd; [constructor|].
  inversion Hnd as [|? ? Hnotin Hnd']; subst.
  destruct (String.eqb k' k); simpl; [assumption|].
  constructor; [|now apply IH].
  intros Hin. apply Hnotin. now apply keys_delete_subset in Hin.
Qed.

Lemma NoDup_keys_set k v m : NoDup (keys m) -> NoDup (keys (set k v m)).
Proof.
  intros Hnd. destruct (get k m) eqn:E.
  - rewrite keys_set_present; [assumption | congruence].
  - rewrite set_absent by assumption. unfold keys.
    rewrite map_app. simpl.
    apply get_None_keys in E.
    apply NoDup_app; [assumption | repeat constructor; simpl; tauto |].
    intros a Ha [<-|[]]. now apply E.
Qed.

Lemma get_map_values (f : V -> V) k m :
  get k (map_values f m) = option_map f (get k m).
Proof.
  induction m as [|[k' v'] m IH]; simpl; [reflexivity|].
  destruct (String.eqb k' k); simpl; auto.
Qed.

Lemma keys_map_values (f : V -> V) m : keys (map_values f m) = keys m.
Proof.
  unfold keys, map_values. rewrite map_map. reflexivity.
Qed.

Lemma size_map_values (f : V -> V) m : size (map_values f m) = size m.
Proof. unfold size, map_values. apply length_map. Qed.

Lemma size_delete_le k m : (size (delete k m) <= size m)%nat.
Proof.
  induction m as [|[k' v'] m IH]; simpl; [lia|].
  destruct (String.eqb k' k); simpl; unfold size in *; lia.
Qed.
End Facts.
End JsMapFacts.

(* ================================================================== *)
(** ** Taps *)

Lemma Status_eqb_eq a b : Status_eqb a b = true <-> a = b.
Proof. destruct a, b; simpl; split; congruence. Qed.

Lemma score_with_games gid pid s gs :
  score gid pid (with_games s gs) =
  match JsMap.get gid gs with
  | Some game => option_map taps (JsMap.get pid (players game))
  | None => None
  end.
Proof. reflexivity. Qed.

(** The two ways through the [tap] handler: every guard passes and the
    count goes up, or some guard returns early and nothing happens. *)
Lemma on_tap_cases sock p_gameId p_playerId t s :
  let gid := or_default p_gameId "default" in
  let pid := or_default p_playerId "" in
  (exists game player,
      tap_counts sock gid pid t s /\
      room gid s = Some game /\
      JsMap.get pid (players game) = Some player /\
      on_tap sock p_gameId p_playerId t s =
        (with_games s
           (JsMap.set gid
              (with_players game
                 (JsMap.set pid (with_taps player (taps player + 1))
                            (players game)))
              (games s)),
         [Emit gid (tap_update gid pid (taps player + 1))]))
  \/ (~ tap_counts sock gid pid t s /\
      on_tap sock p_gameId p_playerId t s = (s, [])).
Proof.
  intros gid pid. unfold on_tap. fold gid pid.
  destruct (JsMap.get gid (games s)) as [game|] eqn:Hg.
  2:{ right. split; [|reflexivity].
      intros (g & p & st & en & Hr & _). unfold room in Hr. congruence. }
  destruct (Status_eqb (status game) running) eqn:Hst; simpl.
  2:{ right. split; [|reflexivity].
      intros (g & p & st & en & Hr & Hs & _). unfold room in Hr.
      assert (g = game) by congruence. subst g.
      apply Status_eqb_eq in Hs. congruence. }
  apply Status_eqb_eq in Hst.
  destruct (startTime game) as [st|] eqn:Hs0.
  2:{ right. split; [|reflexivity].
      intros (g & p & st & en & Hr & _ & Hs & _). unfold room in Hr.
      congruence. }
  destruct (endTime game) as [en|] eqn:He0.
  2:{ right. split; [|reflexivity].
      intros (g & p & st' & en & Hr & _ & _ & He & _). unfold room in Hr.
      congruence. }
  destruct ((t <? st) || (t >? en)) eqn:Hw.
  { right. split; [|reflexivity].
    intros (g & p & st' & en' & Hr & _ & Hs & He & Hin & _). unfold room in Hr.
    assert (g = game) by congruence. subst g.
    assert (st' = st) by congruence. assert (en' = en) by congruence. subst.
    apply orb_true_iff in Hw. destruct Hw as [Hw|Hw]; lia. }
  apply orb_false_iff in Hw. destruct Hw as [Hlo Hhi].
  destruct (JsMap.get pid (players game)) as [player|] eqn:Hp.
  2:{ right. split; [|reflexivity].
      intros (g & p & st' & en' & Hr & _ & _ & _ & _ & Hp' & _).
      unfold room in Hr. congruence. }
  destruct (String.eqb_spec (socketId player) sock) as [Hsock|Hsock]; simpl.
  - left. exists game, player. repeat split; trivial.
    exists game, player, st, en. unfold room. repeat split; trivial; lia.
  - right. split; [|reflexivity].
    intros (g & p & st' & en' & Hr & _ & _ & _ & _ & Hp' & Hs').
    unfold room in Hr. congruence.
Qed.

(** C1.  A tap processed at server time [t] raises the target player's count
    by exactly one if and only if the game exists, is running, [t] lies in
    [[startTime, endTime]] (both ends included), the player is in the roster
    and the tap came on the socket recorded for that player.  When it counts,
    the new count is broadcast and no other count changes; in every other
    case the state is unchanged and nothing is sent. *)
Theorem tap_counts_iff_in_window sock p_gameId p_playerId t s :
  let gid := or_default p_gameId "default" in
  let pid := or_default p_playerId "" in
  let s' := fst (on_tap sock p_gameId p_playerId t s) in
  let out := snd (on_tap sock p_gameId p_playerId t s) in
  ((exists n, score gid pid s = Some n /\ score gid pid s' = Some (n + 1))
     <-> tap_counts sock gid pid t s)
  /\ (tap_counts sock gid pid t s ->
      (exists n, score gid pid s = Some n /\
                 out = [Emit gid (tap_update gid pid (n + 1))])
      /\ forall gid' pid', (gid', pid') <> (gid, pid) ->
                           score gid' pid' s' = score gid' pid' s)
  /\ (~ tap_counts sock gid pid t s -> s' = s /\ out = []).
Proof.
  intros gid pid s' out.
  pose proof (on_tap_cases sock p_gameId p_playerId t s) as H.
  cbv zeta in H. fold gid pid in H.
  destruct H as [(game & player & Hc & Hr & Hp & Heq) | [Hn Heq]];
    subst s' out; rewrite Heq; simpl.
  - assert (Hs : score gid pid s = Some (taps player)).
    { unfold score. now rewrite Hr, Hp. }
    split; [|split].
    + split; [intros _; exact Hc|]. intros _.
      exists (taps player). split; [exact Hs|].
      rewrite score_with_games, JsMapFacts.get_set_same. simpl.
      now rewrite JsMapFacts.get_set_same.
    + intros _. split; [now exists (taps player)|].
      intros gid' pid' Hne. rewrite score_with_games.
      unfold score, room. rewrite JsMapFacts.get_set.
      destruct (String.eqb_spec gid gid') as [<-|Hg]; [|reflexivity].
      unfold room in Hr. rewrite Hr. simpl.
      rewrite JsMapFacts.get_set_other; [reflexivity|congruence].
    + intros Hn. contradiction.
  - split; [|split].
    + split; [|intros Hc; contradiction].
      intros (n & H1 & H2). rewrite H1 in H2. injection H2. lia.
    + intros Hc. contradiction.
    + intros _. split; reflexivity.
Qed.

(* ================================================================== *)
(** ** The registry *)

Lemma createGameIfMissing_get gid gs :
  JsMap.get gid (fst (createGameIfMissing gid gs)) =
  Some (snd (createGameIfMissing gid gs)).
Proof.
  unfold createGameIfMissing.
  destruct (JsMap.get gid gs) eqn:E; simpl; [exact E|].
  apply JsMapFacts.get_set_same.
Qed.

Lemma createGameIfMissing_present gid gs game :
  JsMap.get gid gs = Some game -> createGameIfMissing gid gs = (gs, game).
Proof. unfold createGameIfMissing. now intros ->. Qed.

(** Rooms that exist are left alone by [createGameIfMissing]. *)
Lemma createGameIfMissing_keeps gid gid' gs game :
  JsMap.get gid' gs = Some game ->
  JsMap.get gid' (fst (createGameIfMissing gid gs)) = Some game.
Proof.
  unfold createGameIfMissing. intros H.
  destruct (JsMap.get gid gs) eqn:E; simpl; [exact H|].
  rewrite JsMapFacts.get_set_other; [exact H|]. congruence.
Qed.

(* ================================================================== *)
(** ** Starting a round *)

(** C2, as stated, fails: [start_game] on a running game answers
    [already_running] before it looks at the roster, also when the roster is
    empty. *)
Lemma start_empty_running_counterexample :
  exists game,
    room "default" running_empty_state = Some game /\
    players game = [] /\
    status game = running /\
    snd (on_start_game "s1" None true 1730563202000 running_empty_state)
      = [Ack "s1" (AckError already_running)] /\
    snd (on_start_game "s1" None true 1730563202000 running_empty_state)
      <> [Ack "s1" (AckError no_players)].
Proof.
  eexists. split; [vm_compute; reflexivity|].
  repeat split; try reflexivity.
  vm_compute. discriminate.
Qed.

(** C2, amended.  [start_game] on a game with an empty roster always fails
    and leaves the game (its status included) and every other game as they
    were: with [no_players] when the game is in the lobby or ended, with
    [already_running] when it is running.  A game that did not exist is
    created in the lobby by the call. *)
Theorem start_empty_roster_fails sock p_gameId ack now s :
  let gid := or_default p_gameId "default" in
  let game := snd (createGameIfMissing gid (games s)) in
  let s' := fst (on_start_game sock p_gameId ack now s) in
  JsMap.size (players game) = 0%nat ->
  snd (on_start_game sock p_gameId ack now s) =
    send_ack ack sock
      (AckError (match status game with
                 | running => already_running
                 | _ => no_players
                 end))
  /\ room gid s' = Some game
  /\ (forall gid' g, room gid' s = Some g -> room gid' s' = Some g)
  /\ recentGames s' = recentGames s
  /\ timers s' = timers s.
Proof.
  intros gid game s' Hsize. subst s'. unfold on_start_game. fold gid.
  pose proof (createGameIfMissing_get gid (games s)) as Hget.
  pose proof (fun gid' g => createGameIfMissing_keeps gid gid' (games s) g) as Hkeep.
  fold game in Hget.
  destruct (createGameIfMissing gid (games s)) as [gs g0] eqn:Hc.
  simpl in game, Hget, Hkeep. subst game.
  destruct (status g0) eqn:Hst; simpl;
    try rewrite Hsize; simpl; unfold room; simpl; auto.
Qed.

Lemma start_empty_roster_fails_witness :
  snd (on_start_game "s9" (Some "fresh") true 5 running_empty_state) =
    [Ack "s9" (AckError no_players)]
  /\ room "fresh" (fst (on_start_game "s9" (Some "fresh") true 5 running_empty_state))
     = Some new_game.
Proof.
  pose proof (start_empty_roster_fails "s9" (Some "fresh") true 5
                running_empty_state eq_refl) as (H1 & H2 & _).
  split; [exact H1 | exact H2].
Defined.

Lemma send_ack_no_emit ack sock a room m : ~ In (Emit room m) (send_ack ack sock a).
Proof. destruct ack; simpl; [intros [H|[]]; discriminate | tauto]. Qed.

(** The two ways through the [start_game] handler. *)
Lemma on_start_game_cases sock p_gameId ack now s :
  let gid := or_default p_gameId "default" in
  let gs := fst (createGameIfMissing gid (games s)) in
  let game := snd (createGameIfMissing gid (games s)) in
  (status game <> running /\ JsMap.size (players game) <> 0%nat /\
   on_start_game sock p_gameId ack now s =
     ({| games :=
           JsMap.set gid
             {| status := running;
                players := JsMap.map_values (fun p => with_taps p 0) (players game);
                startTime := Some now;
                endTime := Some (now + TAP_WINDOW_MS);
                timeoutHandle := Some (nextHandle s) |} gs;
         recentGames := recentGames s;
         timers :=
           match timeoutHandle game with
           | Some h => clearTimeout h (timers s)
           | None => timers s
           end ++ [(nextHandle s, gid)];
         nextHandle := S (nextHandle s) |},
      Emit gid (game_start gid now TAP_WINDOW_MS)
        :: send_ack ack sock (AckStarted gid now TAP_WINDOW_MS)))
  \/ ((status game = running \/ JsMap.size (players game) = 0%nat) /\
      exists e, on_start_game sock p_gameId ack now s =
                  (with_games s gs, send_ack ack sock (AckError e))).
Proof.
  intros gid gs game. subst gs game. unfold on_start_game. fold gid.
  destruct (createGameIfMissing gid (games s)) as [gs game]. simpl.
  destruct (Status_eqb (status game) running) eqn:Hst.
  - right. apply Status_eqb_eq in Hst. split; [now left|]. now eexists.
  - assert (status game <> running).
    { intros H. apply Status_eqb_eq in H. congruence. }
    destruct (Nat.eqb_spec (JsMap.size (players game)) 0).
    + right. split; [now right|]. now eexists.
    + left. repeat split; assumption.
Qed.

(** C5.  Whenever [start_game] succeeds, the game is running with both
    [startTime] and [endTime] set, [startTime] is the time read by the call,
    [startTime < endTime], and [endTime - startTime] is exactly 15000 ms. *)
Theorem start_sets_window sock p_gameId ack now s :
  let gid := or_default p_gameId "default" in
  let s' := fst (on_start_game sock p_gameId ack now s) in
  start_succeeds (snd (on_start_game sock p_gameId ack now s)) ->
  exists game' st en,
    room gid s' = Some game' /\
    status game' = running /\
    startTime game' = Some st /\ endTime game' = Some en /\
    st = now /\ st < en /\ en - st = 15000.
Proof.
  intros gid s' Hok. subst s'.
  pose proof (on_start_game_cases sock p_gameId ack now s) as H.
  cbv zeta in H. fold gid in H.
  destruct H as [(_ & _ & Heq) | [_ [e Heq]]]; rewrite Heq in *; simpl in *.
  - eexists _, now, (now + TAP_WINDOW_MS). unfold room. simpl.
    rewrite JsMapFacts.get_set_same. simpl.
    repeat split; unfold TAP_WINDOW_MS; lia.
  - destruct Hok as (g & st & d & Hin).
    now apply send_ack_no_emit in Hin.
Qed.

Lemma start_sets_window_witness :
  exists game' st en,
    room "default"
         (fst (on_start_game "s1" None true 1730563217000 one_player_lobby))
      = Some game' /\
    status game' = running /\
    startTime game' = Some st /\ endTime game' = Some en /\
    st = 1730563217000 /\ st < en /\ en - st = 15000.
Proof.
  apply (start_sets_window "s1" None true 1730563217000 one_player_lobby).
  exists "default", 1730563217000, 15000. left. reflexivity.
Defined.

(* ================================================================== *)
(** ** Sorting *)

Section SortFacts.
Context {A : Type} (cmp : A -> A -> Z).

Lemma sort_insert_perm x l : Permutation (sort_insert cmp x l) (x :: l).
Proof.
  induction l as [|y l IH]; simpl; [reflexivity|].
  destruct (cmp x y <=? 0); [reflexivity|].
  rewrite IH. apply perm_swap.
Qed.

Lemma array_sort_perm l : Permutation (array_sort cmp l) l.
Proof.
  induction l as [|x l IH]; simpl; [reflexivity|].
  rewrite sort_insert_perm. now constructor.
Qed.

Lemma array_sort_length l : List.length (array_sort cmp l) = List.length l.
Proof. apply Permutation_length, array_sort_perm. Qed.

Lemma array_sort_nil_iff l : array_sort cmp l = [] <-> l = [].
Proof.
  split; [|now intros ->].
  intros H. apply (f_equal (@List.length A)) in H.
  rewrite array_sort_length in H. now destruct l.
Qed.

(** Elements that the comparator does not put after one another keep their
    relative order: the sort is stable. *)
Section Stable.
Variable p : A -> bool.
Hypothesis p_class : forall a b, p a = true -> p b = true -> cmp a b <= 0.

Lemma filter_sort_insert x l :
  filter p (sort_insert cmp x l) = filter p (x :: l).
Proof.
  induction l as [|y l IH]; [reflexivity|].
  cbn [sort_insert]. destruct (Z.leb_spec (cmp x y) 0) as [Hle|Hgt].
  - reflexivity.
  - cbn [filter] in *. rewrite IH.
    destruct (p x) eqn:Hx, (p y) eqn:Hy; try reflexivity.
    specialize (p_class x y Hx Hy). lia.
Qed.

Lemma filter_array_sort l : filter p (array_sort cmp l) = filter p l.
Proof.
  induction l as [|x l IH]; [reflexivity|].
  cbn [array_sort]. rewrite filter_sort_insert. cbn [filter].
  now rewrite IH.
Qed.
End Stable.

(** With a comparator that is a total preorder the result is sorted. *)
Section Sorted.
Hypothesis cmp_total : forall a b, 0 < cmp a b -> cmp b a <= 0.
Hypothesis cmp_trans : forall a b c, cmp a b <= 0 -> cmp b c <= 0 -> cmp a c <= 0.

Let le (a b : A) : Prop := cmp a b <= 0.

Lemma sort_insert_sorted x l :
  StronglySorted le l -> StronglySorted le (sort_insert cmp x l).
Proof.
  induction 1 as [|y l Hs IH Hall]; simpl.
  - repeat constructor.
  - destruct (Z.leb_spec (cmp x y) 0) as [Hle|Hgt].
    + constructor; [now constructor|].
      constructor; [exact Hle|].
      eapply Forall_impl; [|exact Hall].
      intros z Hz. eapply cmp_trans; eassumption.
    + constructor; [exact IH|].
      eapply Permutation_Forall.
      * symmetry. apply sort_insert_perm.
      * constructor; [now apply cmp_total | exact Hall].
Qed.

Lemma array_sort_sorted l : StronglySorted le (array_sort cmp l).
Proof.
  induction l as [|x l IH]; simpl; [constructor|].
  now apply sort_insert_sorted.
Qed.
End Sorted.
End SortFacts.

(** The stable sort of a list is unique: two sorted lists that hold, for
    every element, the same elements equivalent to it in the same order, are
    equal.  So [array_sort] is the result of any stable sorting algorithm. *)
Section StableUnique.
Context {A : Type} (leb : A -> A -> bool).
Hypothesis leb_refl : forall a, leb a a = true.

Let eqv (x y : A) : bool := leb x y && leb y x.
Let le (x y : A) : Prop := leb x y = true.

Lemma stable_sorted_unique (l1 : list A) : forall l2,
  StronglySorted le l1 -> StronglySorted le l2 ->
  (forall x, filter (eqv x) l1 = filter (eqv x) l2) ->
  l1 = l2.
Proof.
  assert (Hrefl : forall x, eqv x x = true).
  { intros x. unfold eqv. now rewrite leb_refl. }
  induction l1 as [|a l1 IH]; intros l2 Hs1 Hs2 Hf.
  - destruct l2 as [|b l2]; [reflexivity|].
    specialize (Hf b). simpl in Hf. rewrite Hrefl in Hf. discriminate.
  - apply StronglySorted_inv in Hs1. destruct Hs1 as [Hs1 Ha].
    rewrite Forall_forall in Ha.
    destruct l2 as [|b l2].
    { specialize (Hf a). simpl in Hf. rewrite Hrefl in Hf. discriminate. }
    apply StronglySorted_inv in Hs2. destruct Hs2 as [Hs2 Hb].
    rewrite Forall_forall in Hb.
    assert (Hab : a = b).
    { pose proof (Hf a) as Hfa. pose proof (Hf b) as Hfb. simpl in Hfa, Hfb.
      rewrite Hrefl in Hfa, Hfb.
      destruct (eqv a b) eqn:Eab; [congruence|].
      destruct (eqv b a) eqn:Eba.
      { unfold eqv in *. rewrite andb_comm in Eba. congruence. }
      assert (Hin_a : In a l2).
      { assert (H : In a (filter (eqv a) l2)) by (rewrite <- Hfa; now left).
        now apply filter_In in H. }
      assert (Hin_b : In b l1).
      { assert (H : In b (filter (eqv b) l1)) by (rewrite Hfb; now left).
        now apply filter_In in H. }
      specialize (Ha b Hin_b). specialize (Hb a Hin_a).
      unfold eqv, le in *. rewrite Ha, Hb in Eab. discriminate. }
    subst b. f_equal. apply IH; trivial.
    intros x. specialize (Hf x). simpl in Hf.
    destruct (eqv x a); congruence.
Qed.
End StableUnique.

(* ================================================================== *)
(** ** Results *)

Lemma StronglySorted_impl {A} (R R' : A -> A -> Prop) l :
  (forall a b, R a b -> R' a b) -> StronglySorted R l -> StronglySorted R' l.
Proof.
  intros HR. induction 1 as [|a l _ IH Hall]; constructor; [exact IH|].
  eapply Forall_impl; [|exact Hall]. apply HR.
Qed.

Lemma computeResults_sorted game : StronglySorted score_ge (fst (computeResults game)).
Proof.
  unfold computeResults. simpl.
  apply StronglySorted_impl with (R := fun a b => by_taps_desc a b <= 0).
  - unfold by_taps_desc, score_ge. intros a b H. lia.
  - apply array_sort_sorted; unfold by_taps_desc; intros; lia.
Qed.

(** The ranking is determined by being sorted and stable, whatever the
    sorting algorithm. *)
Lemma computeResults_unique game ranked :
  StronglySorted score_ge ranked ->
  (forall k, filter (has_taps k) ranked = filter (has_taps k) (roster_scores game)) ->
  ranked = fst (computeResults game).
Proof.
  intros Hs Hf.
  apply (stable_sorted_unique (fun a b => s_taps b <=? s_taps a)).
  - intros a. apply Z.leb_refl.
  - eapply StronglySorted_impl; [|exact Hs].
    unfold score_ge. intros a b H. apply Z.leb_le. lia.
  - eapply StronglySorted_impl; [|apply computeResults_sorted].
    unfold score_ge. intros a b H. apply Z.leb_le. lia.
  - intros x.
    assert (Hext : forall l,
               filter (fun y => (s_taps y <=? s_taps x) && (s_taps x <=? s_taps y)) l
               = filter (has_taps (s_taps x)) l).
    { intros l. apply filter_ext. intros y. unfold has_taps.
      destruct (Z.eqb_spec (s_taps y) (s_taps x)) as [->|Hne].
      - now rewrite Z.leb_refl.
      - destruct (Z.leb_spec (s_taps y) (s_taps x)),
                 (Z.leb_spec (s_taps x) (s_taps y)); simpl; trivial; lia. }
    rewrite !Hext, Hf. symmetry. unfold computeResults. simpl.
    apply filter_array_sort.
    unfold has_taps, by_taps_desc. intros a b Ha Hb. lia.
Qed.

(* ================================================================== *)
(** ** Leaderboard history *)

Lemma recordGameToLeaderboard_eq gid game now recent :
  recordGameToLeaderboard gid game now recent =
  if (MAX_LEADERBOARD_GAMES <? List.length (recent ++ [result_record gid game now]))%nat
  then List.tl (recent ++ [result_record gid game now])
  else recent ++ [result_record gid game now].
Proof. reflexivity. Qed.

Lemma tl_skipn {A} k (l : list A) : List.tl (skipn k l) = skipn (S k) l.
Proof.
  revert l. induction k as [|k IH]; intros [|x l]; simpl; trivial.
Qed.

(** One call: the history stays within the capacity; below capacity the
    record is appended, at capacity the oldest item goes. *)
Lemma record_one gid game now recent :
  (List.length recent <= MAX_LEADERBOARD_GAMES)%nat ->
  let recent' := recordGameToLeaderboard gid game now recent in
  (List.length recent' <= MAX_LEADERBOARD_GAMES)%nat
  /\ ((List.length recent < MAX_LEADERBOARD_GAMES)%nat ->
      recent' = recent ++ [result_record gid game now])
  /\ (List.length recent = MAX_LEADERBOARD_GAMES ->
      recent' = List.tl recent ++ [result_record gid game now]).
Proof.
  intros Hlen recent'. subst recent'. rewrite recordGameToLeaderboard_eq.
  rewrite length_app. simpl.
  destruct (Nat.ltb_spec MAX_LEADERBOARD_GAMES (List.length recent + 1)) as [H|H];
    unfold MAX_LEADERBOARD_GAMES in *.
  - split; [|split].
    + destruct recent; simpl in *; [lia|]. rewrite length_app. simpl. lia.
    + lia.
    + intros _. destruct recent; [simpl in *; lia|reflexivity].
  - split; [|split].
    + rewrite length_app. simpl. lia.
    + reflexivity.
    + lia.
Qed.

Lemma record_all_snoc calls c recent :
  record_all (calls ++ [c]) recent =
  recordGameToLeaderboard (fst (fst c)) (snd (fst c)) (snd c)
                          (record_all calls recent).
Proof. unfold record_all. now rewrite fold_left_app. Qed.

Lemma record_all_last calls :
  record_all calls [] =
  skipn (List.length calls - MAX_LEADERBOARD_GAMES) (records_of calls).
Proof.
  induction calls as [|c calls IH] using rev_ind; [reflexivity|].
  rewrite record_all_snoc, recordGameToLeaderboard_eq, IH.
  unfold records_of. rewrite map_app. simpl. fold (records_of calls).
  set (r := result_record _ _ _).
  assert (Hn : List.length (records_of calls) = List.length calls)
    by apply length_map.
  assert (Happ : skipn (List.length calls - MAX_LEADERBOARD_GAMES) (records_of calls) ++ [r]
                 = skipn (List.length calls - MAX_LEADERBOARD_GAMES) (records_of calls ++ [r])).
  { rewrite skipn_app.
    replace (List.length calls - MAX_LEADERBOARD_GAMES - List.length (records_of calls))%nat
      with 0%nat by lia.
    reflexivity. }
  rewrite Happ, length_skipn, !length_app, Hn. simpl.
  destruct (Nat.ltb_spec MAX_LEADERBOARD_GAMES
              (List.length calls + 1 - (List.length calls - MAX_LEADERBOARD_GAMES))).
  - rewrite tl_skipn. f_equal. lia.
  - f_equal. lia.
Qed.

(** Only the end-of-round callback touches the history, by one call of
    [recordGameToLeaderboard]. *)
Lemma step_recentGames s ev :
  recentGames (fst (step s ev)) = recentGames s \/
  exists gid game now,
    recentGames (fst (step s ev)) =
    recordGameToLeaderboard gid game now (recentGames s).
Proof.
  destruct ev as [sock u g ack rnd now|sock g ack now|sock g p now|sock|h now|];
    simpl.
  - left. unfold on_join_game.
    destruct (String.eqb _ _); [reflexivity|].
    destruct (createGameIfMissing _ _) as [gs game].
    destruct (status game); reflexivity.
  - left. unfold on_start_game.
    destruct (createGameIfMissing _ _) as [gs game].
    destruct (Status_eqb _ _); [reflexivity|].
    destruct (Nat.eqb _ _); reflexivity.
  - left. pose proof (on_tap_cases sock g p now s) as H. cbv zeta in H.
    destruct H as [(game & player & _ & _ & _ & ->)|[_ ->]]; reflexivity.
  - now left.
  - unfold on_timeout. destruct (find _ _) as [[h' gid]|]; [|now left].
    unfold endNow. simpl.
    destruct (JsMap.get gid (games s)) as [game|]; [|now left].
    right. now exists gid, (with_status game ended), now.
  - now left.
Qed.

Lemma reachable_history_bounded s :
  reachable s -> (List.length (recentGames s) <= MAX_LEADERBOARD_GAMES)%nat.
Proof.
  induction 1 as [|s ev _ IH]; [simpl; lia|].
  destruct (step_recentGames s ev) as [->|(gid & game & now & ->)]; [exact IH|].
  now apply record_one.
Qed.

(** C8.  After any sequence of [recordGameToLeaderboard] calls on the empty
    history at most 50 items are retained, and they are the last 50 records
    made, oldest first: each call beyond the capacity drops exactly the
    oldest retained item.  The history of every reachable state of the server
    holds at most 50 items. *)
Theorem leaderboard_history_fifo (calls : list (string * Game * Z)) :
  let history := record_all calls [] in
  (List.length history <= 50)%nat
  /\ history = skipn (List.length calls - 50) (records_of calls)
  /\ List.length history = Nat.min (List.length calls) 50
  /\ (forall s, reachable s -> (List.length (recentGames s) <= 50)%nat).
Proof.
  intros history. subst history. rewrite record_all_last.
  change MAX_LEADERBOARD_GAMES with 50%nat.
  rewrite length_skipn. unfold records_of. rewrite length_map.
  repeat split; try lia.
  apply reachable_history_bounded.
Qed.

(* ================================================================== *)
(** ** Leaderboard view *)

Lemma by_taps_then_time_le a b : by_taps_then_time a b <= 0 <-> row_le a b.
Proof.
  unfold by_taps_then_time, row_le.
  destruct (Z.eqb_spec (r_taps b - r_taps a) 0); lia.
Qed.

Lemma array_slice_prefix {A} (n : nat) (l : list A) :
  array_slice 0 (Some (Z.of_nat n)) l = firstn n l.
Proof.
  unfold array_slice, slice_index.
  destruct (Z.ltb_spec (Z.of_nat n) 0) as [H|_]; [lia|].
  change (0 <? 0) with false. cbv iota.
  rewrite (Z.min_l 0) by lia. rewrite Z.sub_0_r. cbn [Z.to_nat skipn].
  destruct (Nat.le_gt_cases n (List.length l)) as [Hle|Hgt].
  - rewrite Z.min_l by lia. now rewrite Nat2Z.id.
  - rewrite Z.min_r by lia. rewrite Nat2Z.id.
    rewrite firstn_all. symmetry. apply firstn_all2. lia.
Qed.

(** The code's flattening is the concatenation, record by record in the
    order of the history, of each record's score lines in their order, each
    shown with its name and taps and with the record's game id and
    timestamp. *)
Lemma allScores_flat (recent : list RecentGame) :
  allScores recent
  = List.flat_map
      (fun g => List.map
                  (fun sc => {| r_username := s_username sc;
                                r_taps := s_taps sc;
                                r_gameId := gameId g;
                                r_timestamp := timestamp g |})
                  (scores g))
      recent.
Proof.
  unfold allScores. induction recent as [|g recent IH]; [reflexivity|].
  cbn [flat_map]. rewrite IH. f_equal.
Qed.

(** C9.  For every retained history and every count [n]: let [flat] be the
    score lines of all retained records, record after record in the order of
    the history and line after line in each record, each line with its name
    and taps and its record's game id and timestamp.  Then
    [buildLeaderboardTopN n] is the first [n] lines (all of them when there
    are fewer than [n]) of the list [sorted] that holds exactly the lines of
    [flat], ordered by taps, highest first, lines with equal taps by
    timestamp, earliest first, and lines equal in both in the order they have
    in [flat].  The [GET /leaderboard] handler, its only caller, answers with
    [buildLeaderboardTopN 10] and leaves the state, the stored records
    included, as it was. *)
Theorem leaderboard_top_n (recent : list RecentGame) (n : nat) :
  let flat :=
    List.flat_map
      (fun g => List.map
                  (fun sc => {| r_username := s_username sc;
                                r_taps := s_taps sc;
                                r_gameId := gameId g;
                                r_timestamp := timestamp g |})
                  (scores g))
      recent in
  (exists sorted,
      Permutation sorted flat
      /\ StronglySorted row_le sorted
      /\ (forall k t,
            filter (fun r => (r_taps r =? k) && (r_timestamp r =? t)) sorted =
            filter (fun r => (r_taps r =? k) && (r_timestamp r =? t)) flat)
      /\ buildLeaderboardTopN (Z.of_nat n) recent = firstn n sorted)
  /\ List.length (buildLeaderboardTopN (Z.of_nat n) recent)
     = Nat.min n (List.length flat)
  /\ (forall row, In row (buildLeaderboardTopN (Z.of_nat n) recent) ->
        exists g sc, In g recent /\ In sc (scores g)
                     /\ r_username row = s_username sc
                     /\ r_taps row = s_taps sc
                     /\ r_gameId row = gameId g
                     /\ r_timestamp row = timestamp g)
  /\ (forall s,
        exists rest,
          on_get_leaderboard s
          = (s, [Json (buildLeaderboardTopN (Z.of_nat 10) (recentGames s)) rest])).
Proof.
  intros flat.
  assert (Hflat : allScores recent = flat) by apply allScores_flat.
  set (sorted := array_sort by_taps_then_time flat).
  assert (Htop : buildLeaderboardTopN (Z.of_nat n) recent = firstn n sorted).
  { unfold buildLeaderboardTopN. rewrite Hflat. apply array_slice_prefix. }
  assert (Hperm : Permutation sorted flat) by apply array_sort_perm.
  split; [|split; [|split]].
  - exists sorted. split; [exact Hperm|]. split; [|split; [|exact Htop]].
    + apply StronglySorted_impl with (R := fun a b => by_taps_then_time a b <= 0).
      * intros a b. apply by_taps_then_time_le.
      * apply array_sort_sorted.
        -- intros a b H. apply by_taps_then_time_le.
           unfold by_taps_then_time, row_le in *.
           destruct (Z.eqb_spec (r_taps b - r_taps a) 0); lia.
        -- intros a b c. rewrite !by_taps_then_time_le. unfold row_le. lia.
    + intros k t. apply filter_array_sort.
      intros a b Ha Hb. apply by_taps_then_time_le. unfold row_le.
      apply andb_true_iff in Ha, Hb. lia.
  - rewrite Htop, length_firstn. subst sorted. now rewrite array_sort_length.
  - intros row Hin. rewrite Htop in Hin.
    assert (Hin' : In row flat).
    { apply (Permutation_in _ Hperm).
      rewrite <- (firstn_skipn n sorted). apply in_or_app. now left. }
    subst flat. apply in_flat_map in Hin'. destruct Hin' as (g & Hg & Hrow).
    apply in_map_iff in Hrow. destruct Hrow as (sc & <- & Hsc).
    exists g, sc. cbn. repeat split; assumption.
  - intros s. eexists. reflexivity.
Qed.

(* ================================================================== *)
(** ** How one event changes one game *)

Lemma createGameIfMissing_other gid gid' gs :
  gid <> gid' ->
  JsMap.get gid' (fst (createGameIfMissing gid gs)) = JsMap.get gid' gs.
Proof.
  intros Hne. unfold createGameIfMissing.
  destruct (JsMap.get gid gs); simpl; [reflexivity|].
  now apply JsMapFacts.get_set_other.
Qed.

Lemma createGameIfMissing_snd gid gs :
  snd (createGameIfMissing gid gs) =
  match JsMap.get gid gs with Some g => g | None => new_game end.
Proof. unfold createGameIfMissing. now destruct (JsMap.get gid gs). Qed.

Lemma with_games_same s : with_games s (games s) = s.
Proof. now destruct s. Qed.

(** The three ways through the [join_game] handler. *)
Lemma on_join_game_cases sock p_username p_gameId ack rnd now s :
  let name := trim (or_default p_username "") in
  let gid := or_default p_gameId "default" in
  let gs := fst (createGameIfMissing gid (games s)) in
  let game := snd (createGameIfMissing gid (games s)) in
  let pid := generateId "player" rnd now in
  let game' :=
    with_players game
      (JsMap.set pid {| playerId := pid; username := name;
                        socketId := sock; taps := 0 |} (players game)) in
  (name = "" /\
   on_join_game sock p_username p_gameId ack rnd now s =
     (s, send_ack ack sock (AckError username_required)))
  \/ (name <> "" /\ status game <> lobby /\
      on_join_game sock p_username p_gameId ack rnd now s =
        (with_games s gs, send_ack ack sock (AckError game_already_started)))
  \/ (name <> "" /\ status game = lobby /\
      on_join_game sock p_username p_gameId ack rnd now s =
        (with_games s (JsMap.set gid game' gs),
         Emit gid (lobby_update gid (roster_view game'))
           :: send_ack ack sock (AckJoined pid gid))).
Proof.
  intros name gid gs game pid game'. subst gs game' game.
  unfold on_join_game. fold name gid pid.
  destruct (String.eqb_spec name "") as [Hn|Hn]; [now left|].
  right. destruct (createGameIfMissing gid (games s)) as [gs game]. simpl.
  destruct (status game) eqn:Hst.
  - right. repeat split; trivial.
  - left. repeat split; trivial. congruence.
  - left. repeat split; trivial. congruence.
Qed.

Module Import JsMapIter.
Import JsMap.

(** The registry after a loop that replaces every value [v] under key [k]
    by [f k v]. *)
Lemma get_map_entries {V} (f : string -> V -> V) k (m : t V) :
  get k (List.map (fun kv => (fst kv, f (fst kv) (snd kv))) m) =
  option_map (f k) (get k m).
Proof.
  induction m as [|[k' v'] m IH]; simpl; [reflexivity|].
  destruct (String.eqb_spec k' k) as [->|Hk]; simpl; auto.
Qed.
End JsMapIter.

Lemma room_set s gs gid gid' game :
  room gid' (with_games s (JsMap.set gid game gs)) =
  if String.eqb gid gid' then Some game else JsMap.get gid' gs.
Proof. unfold room. simpl. apply JsMapFacts.get_set. Qed.

Lemma step_room_change s ev gid :
  room_change s gid (room gid s) ev (room gid (fst (step s ev))).
Proof.
  destruct ev as [sock u g ack rnd now|sock g ack now|sock g p now|sock|h now|];
    simpl.
  - (* join_game *)
    pose proof (on_join_game_cases sock u g ack rnd now s) as H. cbv zeta in H.
    pose proof (createGameIfMissing_get (or_default g "default") (games s)) as Hget.
    rewrite createGameIfMissing_snd in *.
    destruct H as [[_ ->]|[(_ & Hst & ->)|(Hn & Hst & ->)]]; simpl.
    + constructor.
    + destruct (JsMap.get (or_default g "default") (games s)) eqn:E;
        [|now elim Hst].
      rewrite (createGameIfMissing_present _ _ _ E). simpl.
      rewrite with_games_same. constructor.
    + rewrite room_set.
      destruct (String.eqb_spec (or_default g "default") gid) as [<-|Hne].
      * apply (rc_joined s _ (room (or_default g "default") s)); trivial.
      * rewrite createGameIfMissing_other by assumption. constructor.
  - (* start_game *)
    pose proof (on_start_game_cases sock g ack now s) as H. cbv zeta in H.
    rewrite createGameIfMissing_snd in *.
    destruct H as [(Hst & Hsz & ->)|[Hor [e ->]]]; simpl.
    + change (room gid ?x) with (JsMap.get gid (games x)) at 2. simpl.
      rewrite JsMapFacts.get_set.
      destruct (String.eqb_spec (or_default g "default") gid) as [<-|Hne].
      * destruct (JsMap.get (or_default g "default") (games s)) as [game|] eqn:E.
        -- now apply rc_started.
        -- now elim Hsz.
      * rewrite createGameIfMissing_other by assumption. constructor.
    + unfold room at 2. simpl.
      destruct (String.eqb_spec (or_default g "default") gid) as [<-|Hne].
      * rewrite createGameIfMissing_get, createGameIfMissing_snd.
        unfold room.
        destruct (JsMap.get (or_default g "default") (games s)) eqn:E.
        -- constructor.
        -- now apply rc_created.
      * rewrite createGameIfMissing_other by assumption. constructor.
  - (* tap *)
    pose proof (on_tap_cases sock g p now s) as H. cbv zeta in H.
    destruct H as [(game & player & Hc & Hr & Hp & ->)|[_ ->]]; simpl;
      [|constructor].
    rewrite room_set.
    destruct (String.eqb_spec (or_default g "default") gid) as [<-|Hne];
      [|constructor].
    rewrite Hr. now apply rc_tapped.
  - (* disconnect *)
    unfold room. simpl.
    rewrite (get_map_entries (fun k v => fst (disconnect_game sock k v))).
    destruct (JsMap.get gid (games s)) eqn:E; simpl; [|constructor].
    now apply rc_disconnected.
  - (* timeout *)
    unfold on_timeout.
    destruct (find _ (timers s)) as [[h' gid0]|] eqn:Hf; [|constructor].
    unfold endNow. simpl.
    destruct (JsMap.get gid0 (games s)) as [game|] eqn:E; simpl; [|constructor].
    unfold room. simpl. rewrite JsMapFacts.get_set.
    destruct (String.eqb_spec gid0 gid) as [<-|Hne]; [|constructor].
    rewrite E. now apply rc_ended with (h' := h').
  - constructor.
Qed.

(* ================================================================== *)
(** ** Runs *)

Lemma run_cons s ev evs :
  run s (ev :: evs) =
  (fst (run (fst (step s ev)) evs),
   snd (step s ev) ++ snd (run (fst (step s ev)) evs)).
Proof.
  simpl. destruct (step s ev) as [s1 out1]. simpl.
  now destruct (run s1 evs).
Qed.

Lemma reachable_run s evs : reachable s -> reachable (fst (run s evs)).
Proof.
  revert s. induction evs as [|ev evs IH]; intros s Hs; [exact Hs|].
  rewrite run_cons. simpl. apply IH. now constructor.
Qed.

(** An acknowledgement of a join is sent only by an accepted [join_game]. *)
Lemma step_join_ack s ev sock pid gid :
  In (Ack sock (AckJoined pid gid)) (snd (step s ev)) ->
  exists u g rnd now,
    ev = join_game sock u g true rnd now /\
    or_default g "default" = gid /\
    trim (or_default u "") <> "" /\
    status (game_or_new (room gid s)) = lobby /\
    pid = generateId "player" rnd now.
Proof.
  destruct ev as [sock0 u g ack rnd now|sock0 g ack now|sock0 g p now|sock0|h now|];
    simpl.
  - pose proof (on_join_game_cases sock0 u g ack rnd now s) as H. cbv zeta in H.
    rewrite createGameIfMissing_snd in H.
    destruct H as [[_ ->]|[(_ & _ & ->)|(Hn & Hst & ->)]]; simpl.
    + destruct ack; simpl; [intros [H|[]]; discriminate|tauto].
    + destruct ack; simpl; [intros [H|[]]; discriminate|tauto].
    + intros [H|H]; [discriminate|].
      destruct ack; simpl in H; [|tauto].
      destruct H as [H|[]]. injection H as <- <- <-.
      now exists u, g, rnd, now.
  - pose proof (on_start_game_cases sock0 g ack now s) as H. cbv zeta in H.
    destruct H as [(_ & _ & ->)|[_ [e ->]]]; simpl.
    + intros [H|H]; [discriminate|].
      destruct ack; simpl in H; [destruct H as [H|[]]; discriminate|tauto].
    + destruct ack; simpl; [intros [H|[]]; discriminate|tauto].
  - pose proof (on_tap_cases sock0 g p now s) as H. cbv zeta in H.
    destruct H as [(game & player & _ & _ & _ & ->)|[_ ->]]; simpl;
      [intros [H|[]]; discriminate|tauto].
  - intros H. apply in_flat_map in H. destruct H as ([k game] & _ & H).
    unfold disconnect_game in H. simpl in H.
    destruct (find_removed sock0 (players game)); [|contradiction].
    destruct (String.eqb s0 ""); simpl in H; [contradiction|].
    destruct H as [H|[]]; discriminate.
  - unfold on_timeout. destruct (find _ _) as [[h' gid0]|]; [|simpl; tauto].
    unfold endNow. simpl. destruct (JsMap.get gid0 (games s)); simpl; [|tauto].
    intros [H|[]]; discriminate.
  - intros [H|[]]; discriminate.
Qed.

(* ================================================================== *)
(** ** After the lobby *)

Lemma disconnect_game_status sock gid game :
  let game' := fst (disconnect_game sock gid game) in
  status game' = status game /\ startTime game' = startTime game /\
  endTime game' = endTime game /\ timeoutHandle game' = timeoutHandle game /\
  (JsMap.size (players game') <= JsMap.size (players game))%nat.
Proof.
  unfold disconnect_game.
  destruct (find_removed sock (players game)) as [pid|]; simpl; [|auto].
  destruct (String.eqb pid ""); simpl; [auto|].
  repeat split. apply JsMapFacts.size_delete_le.
Qed.

Lemma keys_size_eq {V} (m m' : JsMap.t V) :
  JsMap.keys m' = JsMap.keys m -> JsMap.size m' = JsMap.size m.
Proof.
  unfold JsMap.keys, JsMap.size. intros H.
  now rewrite <- (length_map fst m'), H, length_map.
Qed.

Lemma room_change_after_lobby s gid r ev r' game :
  room_change s gid r ev r' ->
  r = Some game -> status game <> lobby ->
  exists game',
    r' = Some game' /\ status game' <> lobby /\
    (JsMap.size (players game') <= JsMap.size (players game))%nat /\
    ((forall sock, ev <> disconnect sock) ->
     JsMap.keys (players game') = JsMap.keys (players game)).
Proof.
  intros Hc Hr Hst. subst r.
  destruct Hc as [ev|? ? ? ? Hr0| |? ? ? ? game0 Hr0|? ? ? ? game0 player Hr0 ? ? Hp
                 |sock game0 Hr0|? ? ? game0 Hr0].
  - exists game. auto.
  - discriminate.
  - simpl in *. congruence.
  - injection Hr0 as <-. eexists. split; [reflexivity|]. simpl.
    rewrite JsMapFacts.size_map_values, JsMapFacts.keys_map_values.
    repeat split; auto. discriminate.
  - injection Hr0 as <-. eexists. split; [reflexivity|]. simpl.
    assert (Hk : JsMap.keys (JsMap.set (or_default p "")
                               (with_taps player (taps player + 1)) (players game))
                 = JsMap.keys (players game))
      by (apply JsMapFacts.keys_set_present; congruence).
    rewrite (keys_size_eq _ _ Hk). auto.
  - injection Hr0 as <-. eexists. split; [reflexivity|].
    destruct (disconnect_game_status sock gid game) as (-> & _ & _ & _ & Hle).
    repeat split; auto. intros H. now elim (H sock).
  - injection Hr0 as <-. eexists. split; [reflexivity|]. simpl.
    repeat split; auto. discriminate.
Qed.

(** A join aimed at a game that has left the lobby is refused and changes
    nothing. *)
Lemma join_refused_after_lobby sock u g ack rnd now s game :
  room (or_default g "default") s = Some game -> status game <> lobby ->
  on_join_game sock u g ack rnd now s =
    (s, send_ack ack sock
          (AckError (if String.eqb (trim (or_default u "")) ""
                     then username_required else game_already_started))).
Proof.
  intros Hr Hst.
  pose proof (on_join_game_cases sock u g ack rnd now s) as H. cbv zeta in H.
  rewrite (createGameIfMissing_present _ _ _ Hr) in H. simpl in H.
  rewrite with_games_same in H.
  destruct (String.eqb_spec (trim (or_default u "")) "") as [Hn|Hn];
    destruct H as [[Hn' ->]|[(Hn' & _ & ->)|(_ & Hst' & _)]];
    congruence.
Qed.

(** C10.  Once a game has left the lobby, no sequence of events brings it
    back: after any events the game is still registered and not in the lobby,
    its roster is no larger than before and is the same set of players in the
    same order unless a disconnect happened, no join on it was acknowledged
    on the way, and a further join on it is refused without effect. *)
Theorem never_back_to_lobby (evs : list Event) (s : State) (gid : string) (game : Game) :
  room gid s = Some game ->
  status game <> lobby ->
  exists game',
    room gid (fst (run s evs)) = Some game'
    /\ status game' <> lobby
    /\ (JsMap.size (players game') <= JsMap.size (players game))%nat
    /\ ((forall sock, ~ In (disconnect sock) evs) ->
        JsMap.keys (players game') = JsMap.keys (players game))
    /\ (forall sock pid, ~ In (Ack sock (AckJoined pid gid)) (snd (run s evs)))
    /\ (forall sock u g ack rnd now,
          or_default g "default" = gid ->
          exists e,
            on_join_game sock u g ack rnd now (fst (run s evs)) =
              (fst (run s evs), send_ack ack sock (AckError e))).
Proof.
  revert s game. induction evs as [|ev evs IH]; intros s game Hr Hst.
  - exists game. simpl. repeat split; auto.
    intros sock u g ack rnd now <-. eexists.
    now apply join_refused_after_lobby with (game := game).
  - rewrite run_cons. simpl.
    destruct (room_change_after_lobby _ _ _ _ _ game (step_room_change s ev gid) Hr Hst)
      as (game1 & Hr1 & Hst1 & Hsz1 & Hk1).
    destruct (IH _ _ Hr1 Hst1) as (game' & Hr' & Hst' & Hsz' & Hk' & Hack' & Hj').
    exists game'. repeat split; auto.
    + lia.
    + intros Hnd. rewrite Hk', Hk1; [reflexivity| |].
      * intros sock ->. apply (Hnd sock). now left.
      * intros sock Hin. apply (Hnd sock). now right.
    + intros sock pid Hin. apply in_app_or in Hin. destruct Hin as [Hin|Hin].
      * apply step_join_ack in Hin.
        destruct Hin as (u & g & rnd & now & _ & _ & _ & Hl & _).
        rewrite Hr in Hl. simpl in Hl. contradiction.
      * now apply Hack' in Hin.
Qed.

Lemma never_back_to_lobby_witness :
  exists game',
    room "default"
      (fst (run running_empty_state
              [join_game "s2" (Some "Bob") None true "0.zzz" 1730563203000;
               timeout 0%nat 1730563216005;
               join_game "s2" (Some "Bob") None true "0.zzz" 1730563217000]))
      = Some game'
    /\ status game' <> lobby
    /\ (JsMap.size (players game') <= 0)%nat.
Proof.
  destruct (never_back_to_lobby
              [join_game "s2" (Some "Bob") None true "0.zzz" 1730563203000;
               timeout 0%nat 1730563216005;
               join_game "s2" (Some "Bob") None true "0.zzz" 1730563217000]
              running_empty_state "default"
              {| status := running; players := [];
                 startTime := Some 1730563201000;
                 endTime := Some 1730563216000;
                 timeoutHandle := Some 0%nat |}
              eq_refl ltac:(discriminate))
    as (game' & H1 & H2 & H3 & _).
  exists game'. repeat split; assumption.
Defined.

(* ================================================================== *)
(** ** Joining *)

(** C6, as stated, fails: [generateId] returns the same id to both joins,
    both are accepted and acknowledged with that id, and the second entry
    replaces the first: two accepted joins, one roster entry. *)
Lemma join_collision_counterexample :
  let s' := fst (run initial_state colliding_joins) in
  let out := snd (run initial_state colliding_joins) in
  In (Ack "s1" (AckJoined "player_k3j9x0w2nb40" "default")) out
  /\ In (Ack "s2" (AckJoined "player_k3j9x0w2nb40" "default")) out
  /\ List.length (roster_updates "default" out) = 2%nat
  /\ exists game,
       room "default" s' = Some game /\
       status game = lobby /\
       JsMap.size (players game) = 1%nat /\
       List.map username (JsMap.values (players game)) = ["Bob"].
Proof.
  intros s' out.
  split; [vm_compute; tauto|]. split; [vm_compute; tauto|].
  split; [reflexivity|].
  eexists. split; [vm_compute; reflexivity|]. now repeat split.
Qed.

Lemma roster_updates_send_ack gid ack sock a :
  roster_updates gid (send_ack ack sock a) = [].
Proof. now destruct ack. Qed.

(** One [join_game] seen from the game [gid], which is in the lobby (or not
    yet created). *)
Lemma on_join_game_room sock u g ack rnd now s gid :
  let game := game_or_new (room gid s) in
  let pid := generateId "player" rnd now in
  let s' := fst (on_join_game sock u g ack rnd now s) in
  let out := snd (on_join_game sock u g ack rnd now s) in
  status game = lobby ->
  if join_passes gid u g then
    room gid s' =
      Some (with_players game
              (JsMap.set pid {| playerId := pid; username := trim (or_default u "");
                                socketId := sock; taps := 0 |} (players game)))
    /\ List.length (roster_updates gid out) = 1%nat
  else
    room gid s' = room gid s /\ roster_updates gid out = [].
Proof.
  intros game pid s' out Hst. subst s' out. unfold join_passes.
  pose proof (on_join_game_cases sock u g ack rnd now s) as H. cbv zeta in H.
  rewrite createGameIfMissing_snd in H.
  destruct (String.eqb_spec (or_default g "default") gid) as [Hg|Hg];
    cbn [andb].
  - subst gid. fold (room (or_default g "default") s) in H. fold game pid in H.
    destruct (String.eqb_spec (trim (or_default u "")) "") as [Hn|Hn];
      cbn [negb];
      destruct H as [[Hn' ->]|[(Hn' & Hst' & ->)|(Hn' & _ & ->)]];
      try congruence; try (now elim Hst'); cbn [fst snd].
    + split; [reflexivity|]. apply roster_updates_send_ack.
    + rewrite room_set, String.eqb_refl. split; [reflexivity|].
      unfold roster_updates. simpl. rewrite String.eqb_refl. simpl.
      fold (roster_updates (or_default g "default")
              (send_ack ack sock (AckJoined pid (or_default g "default")))).
      now rewrite roster_updates_send_ack.
  - destruct H as [[_ ->]|[(_ & _ & ->)|(_ & _ & ->)]]; cbn [fst snd].
    + split; [reflexivity|]. apply roster_updates_send_ack.
    + split; [|apply roster_updates_send_ack].
      unfold room. simpl. now apply createGameIfMissing_other.
    + rewrite room_set.
      destruct (String.eqb_spec (or_default g "default") gid); [contradiction|].
      split; [now apply createGameIfMissing_other|].
      unfold roster_updates. simpl.
      destruct (String.eqb_spec (or_default g "default") gid); [contradiction|].
      apply roster_updates_send_ack.
Qed.

Lemma roster_updates_app gid out1 out2 :
  roster_updates gid (out1 ++ out2) = roster_updates gid out1 ++ roster_updates gid out2.
Proof. apply filter_app. Qed.

(** Joins on a game in the lobby, when [generateId] never returns an id that
    the roster already holds. *)
Lemma joins_extend_roster evs : forall s gid,
  Forall is_join evs ->
  status (game_or_new (room gid s)) = lobby ->
  NoDup (JsMap.keys (players (game_or_new (room gid s))) ++ accepted_ids gid evs) ->
  let game := game_or_new (room gid s) in
  let game' := game_or_new (room gid (fst (run s evs))) in
  status game' = lobby
  /\ JsMap.keys (players game') = JsMap.keys (players game) ++ accepted_ids gid evs
  /\ List.length (roster_updates gid (snd (run s evs)))
     = List.length (accepted_ids gid evs)
  /\ (forall pid p, JsMap.get pid (players game) = Some p ->
                    JsMap.get pid (players game') = Some p)
  /\ (forall pid, In pid (accepted_ids gid evs) ->
        exists p, JsMap.get pid (players game') = Some p /\
                  playerId p = pid /\ taps p = 0).
Proof.
  induction evs as [|ev evs IH]; intros s gid Hj Hst Hnd game game'.
  - subst game game'. simpl. rewrite app_nil_r. repeat split; auto.
    intros pid [].
  - inversion Hj as [|? ? Hev Hj']; subst.
    destruct ev as [sock u g ack rnd now| | | | |]; try contradiction.
    subst game'. rewrite run_cons. cbn [fst snd step].
    pose proof (on_join_game_room sock u g ack rnd now s gid Hst) as Hstep.
    cbv zeta in Hstep. cbn [accepted_ids] in *.
    set (s1 := fst (on_join_game sock u g ack rnd now s)) in *.
    set (pid := generateId "player" rnd now) in *.
    rewrite roster_updates_app, length_app.
    destruct (join_passes gid u g).
    + destruct Hstep as [Hr1 Hout1].
      assert (Hfresh : JsMap.get pid (players game) = None).
      { apply JsMapFacts.get_None_keys. intros Hin.
        apply NoDup_remove_2 in Hnd. apply Hnd, in_or_app. now left. }
      assert (Hk1 : JsMap.keys (players (game_or_new (room gid s1)))
                    = JsMap.keys (players game) ++ [pid]).
      { rewrite Hr1. simpl. rewrite JsMapFacts.set_absent by assumption.
        unfold JsMap.keys. now rewrite map_app. }
      specialize (IH s1 gid Hj').
      rewrite Hk1, <- app_assoc in IH. simpl in IH.
      destruct IH as (Hst' & Hk' & Hup' & Hold' & Hnew').
      { now rewrite Hr1. }
      { exact Hnd. }
      rewrite Hout1, Hup'. repeat split; auto.
      * intros pid0 p Hp. apply Hold'. rewrite Hr1. simpl.
        rewrite JsMapFacts.get_set_other; [assumption|]. congruence.
      * intros pid0 [<-|Hin]; [|now apply Hnew'].
        eexists. split; [|split].
        -- apply Hold'. rewrite Hr1. simpl. apply JsMapFacts.get_set_same.
        -- reflexivity.
        -- reflexivity.
    + destruct Hstep as [Hr1 Hout1].
      specialize (IH s1 gid Hj'). rewrite Hr1 in IH.
      destruct (IH Hst Hnd) as (Hst' & Hk' & Hup' & Hold' & Hnew').
      rewrite Hout1, Hup'. repeat split; auto.
Qed.

(** C6, amended.  On a game in the lobby (or not yet created), for every
    sequence of joins in which [generateId] returns ids that are pairwise
    distinct and not in the roster already: every accepted join (a join aimed
    at the game with a name that is not blank, answered by one roster
    broadcast) appends a participant with zero taps under its id, the earlier
    entries stay as they are, and the roster grows by the number of accepted
    joins.  A join on a game that has left the lobby changes nothing and
    fails with [game_already_started] (with [username_required] when the name
    is blank). *)
Theorem joins_fill_roster (evs : list Event) (s : State) (gid : string) :
  Forall is_join evs ->
  status (game_or_new (room gid s)) = lobby ->
  NoDup (JsMap.keys (players (game_or_new (room gid s))) ++ accepted_ids gid evs) ->
  let game := game_or_new (room gid s) in
  let game' := game_or_new (room gid (fst (run s evs))) in
  let accepted := List.length (roster_updates gid (snd (run s evs))) in
  status game' = lobby
  /\ accepted = List.length (accepted_ids gid evs)
  /\ JsMap.size (players game') = (JsMap.size (players game) + accepted)%nat
  /\ JsMap.keys (players game') = JsMap.keys (players game) ++ accepted_ids gid evs
  /\ NoDup (JsMap.keys (players game'))
  /\ (forall pid p, JsMap.get pid (players game) = Some p ->
                    JsMap.get pid (players game') = Some p)
  /\ (forall pid, In pid (accepted_ids gid evs) ->
        exists p, JsMap.get pid (players game') = Some p /\
                  playerId p = pid /\ taps p = 0)
  /\ (forall sock u g ack rnd now s0 game0,
        room (or_default g "default") s0 = Some game0 ->
        status game0 <> lobby ->
        on_join_game sock u g ack rnd now s0 =
          (s0, send_ack ack sock
                 (AckError (if String.eqb (trim (or_default u "")) ""
                            then username_required else game_already_started)))).
Proof.
  intros Hj Hst Hnd game game' accepted.
  destruct (joins_extend_roster evs s gid Hj Hst Hnd)
    as (Hst' & Hk' & Hup' & Hold' & Hnew').
  fold game game' in Hst', Hk', Hold', Hnew'. fold accepted in Hup'.
  repeat split; auto.
  - unfold JsMap.size. rewrite <- (length_map fst (players game')).
    fold (JsMap.keys (players game')). rewrite Hk', length_app, Hup'.
    unfold JsMap.keys. now rewrite length_map.
  - rewrite Hk'. exact Hnd.
  - intros. now apply join_refused_after_lobby with (game := game0).
Qed.

Lemma joins_fill_roster_witness :
  let evs := [join_game "s1" (Some "Alice") None true "0.k3j9x0w2abc" 1730563200000;
              join_game "s2" (Some "  ") None true "0.zzzzzzzzzzz" 1730563200000;
              join_game "s2" (Some "Bob") None true "0.7fq2m1c9xyz" 1730563200000] in
  JsMap.size (players (game_or_new (room "default" (fst (run initial_state evs)))))
    = 2%nat
  /\ List.length (roster_updates "default" (snd (run initial_state evs))) = 2%nat.
Proof.
  intros evs.
  assert (Hj : Forall is_join evs) by (repeat constructor).
  assert (Hnd : NoDup (JsMap.keys (players (game_or_new (room "default" initial_state)))
                         ++ accepted_ids "default" evs)).
  { vm_compute. repeat constructor; simpl; intuition discriminate. }
  destruct (joins_fill_roster evs initial_state "default" Hj eq_refl Hnd)
    as (_ & H2 & H3 & _).
  split; [exact H3 | exact H2].
Defined.

(* ================================================================== *)
(** ** Rosters of reachable states *)

Lemma keys_set_subset {V} k (v : V) m x :
  In x (JsMap.keys (JsMap.set k v m)) -> x = k \/ In x (JsMap.keys m).
Proof.
  induction m as [|[k' v'] m IH]; simpl.
  - intros [<-|[]]. now left.
  - destruct (String.eqb_spec k' k) as [->|Hk]; simpl; intuition.
Qed.

Lemma generateId_not_empty prefix rnd now : generateId (String "p" prefix) rnd now <> "".
Proof. discriminate. Qed.

Lemma find_removed_key sock ps pid :
  find_removed sock ps = Some pid -> In pid (JsMap.keys ps).
Proof.
  unfold find_removed.
  destruct (find _ ps) as [[k v]|] eqn:E; [|discriminate].
  intros [= <-]. apply find_some in E. destruct E as [Hin _].
  change k with (fst (k, v)). now apply in_map.
Qed.

Lemma room_change_roster_ok s gid r ev r' :
  room_change s gid r ev r' ->
  (forall game, r = Some game -> roster_ok game) ->
  forall game', r' = Some game' -> roster_ok game'.
Proof.
  intros Hc Hok game' Hr'.
  assert (Hnew : roster_ok (game_or_new r)).
  { destruct r as [g|]; simpl; [now apply Hok|].
    split; [constructor|intros pid []]. }
  destruct Hc as [ev|? ? ? ? Hr0| |? ? ? ? game0 Hr0|? ? ? ? game0 player Hr0 ? ? Hp
                 |sock game0 Hr0|? ? ? game0 Hr0];
    try (injection Hr' as <-); try (specialize (Hok _ Hr0));
    try destruct Hok as [Hnd Hne].
  - now apply Hok.
  - split; [constructor|intros pid []].
  - destruct Hnew as [Hnd Hne]. split; simpl.
    + now apply JsMapFacts.NoDup_keys_set.
    + intros pid Hin. apply keys_set_subset in Hin.
      destruct Hin as [->|Hin]; [apply generateId_not_empty|now apply Hne].
  - split; simpl; rewrite JsMapFacts.keys_map_values; assumption.
  - split; simpl.
    + now apply JsMapFacts.NoDup_keys_set.
    + intros pid Hin. apply keys_set_subset in Hin.
      destruct Hin as [->|Hin]; [|now apply Hne].
      apply Hne. apply JsMapFacts.get_In in Hp.
      change (or_default p "") with (fst (or_default p "", player)).
      now apply in_map.
  - unfold disconnect_game.
    destruct (find_removed sock (players game0)) as [pid|]; simpl; [|now split].
    destruct (String.eqb pid ""); simpl; [now split|].
    split; simpl.
    + now apply JsMapFacts.NoDup_keys_delete.
    + intros pid0 Hin. apply Hne. now apply JsMapFacts.keys_delete_subset in Hin.
  - now split.
Qed.

Lemma reachable_rosters_ok s : reachable s -> rosters_ok s.
Proof.
  induction 1 as [|s ev _ IH].
  - intros gid game H. discriminate.
  - intros gid game' Hr'.
    eapply room_change_roster_ok; [apply step_room_change| |exact Hr'].
    intros game Hr. now apply (IH gid).
Qed.

(* ================================================================== *)
(** ** Connections and roster entries *)


Section MapHandles.
Context {V : Type} (f : V -> string).




End MapHandles.





Lemma remove_first_none {A} (p : A -> bool) l :
  find p l = None -> remove_first p l = l.
Proof.
  induction l as [|x l IH]; simpl; [reflexivity|].
  destruct (p x); [discriminate|]. intros H. f_equal. now apply IH.
Qed.

(** With distinct keys, deleting the key of the first match deletes the
    first match. *)
Lemma delete_found {V} (p : string * V -> bool) (m : JsMap.t V) pid v :
  NoDup (JsMap.keys m) -> find p m = Some (pid, v) ->
  JsMap.delete pid m = remove_first p m.
Proof.
  induction m as [|[k' v'] m IH]; simpl; [discriminate|].
  intros Hnd Hf. apply NoDup_cons_iff in Hnd. destruct Hnd as [Hk' Hnd].
  destruct (p (k', v')).
  - injection Hf as -> ->. now rewrite String.eqb_refl.
  - destruct (String.eqb_spec k' pid) as [->|Hne].
    + exfalso. apply Hk'. apply find_some in Hf. destruct Hf as [Hin _].
      change pid with (fst (pid, v)). now apply in_map.
    + f_equal. now apply IH.
Qed.

Lemma disconnect_game_players sock gid game :
  roster_ok game ->
  players (fst (disconnect_game sock gid game))
  = remove_first (on_socket sock) (players game).
Proof.
  intros [Hnd Hne]. unfold disconnect_game.
  pose proof (find_removed_key sock (players game)) as Hkey.
  unfold find_removed in *. fold (on_socket sock) in *.
  destruct (find (on_socket sock) (players game)) as [[pid p]|] eqn:Hf; simpl.
  - destruct (String.eqb_spec pid "") as [->|_]; simpl.
    + now elim (Hne "" (Hkey "" eq_refl)).
    + now apply delete_found with (v := p).
  - symmetry. now apply remove_first_none.
Qed.

(** When at most one entry matches, removing the first match removes every
    match. *)
Lemma remove_first_all sock (ps : JsMap.t Player) :
  NoDup (List.map socketId (JsMap.values ps)) ->
  remove_first (on_socket sock) ps
  = filter (fun kv => negb (on_socket sock kv)) ps.
Proof.
  induction ps as [|[k v] ps IH]; simpl; [reflexivity|].
  intros Hnd. apply NoDup_cons_iff in Hnd. destruct Hnd as [Hv Hnd].
  unfold on_socket at 1 3. simpl.
  destruct (String.eqb_spec (socketId v) sock) as [<-|Hne]; simpl.
  - clear IH Hnd. induction ps as [|[k0 v0] ps IH]; simpl; [reflexivity|].
    simpl in Hv. unfold on_socket at 1. simpl.
    destruct (String.eqb_spec (socketId v0) (socketId v)) as [E|_]; simpl.
    + exfalso. apply Hv. now left.
    + f_equal. apply IH. tauto.
  - f_equal. now apply IH.
Qed.





(* ================================================================== *)
(** ** Timers *)

Lemma same_phase_refl r : same_phase r r.
Proof. destruct r; simpl; auto. Qed.

Lemma room_change_same_phase s gid r ev r' :
  room_change s gid r ev r' ->
  (forall sock g ack now game,
      ev = start_game sock g ack now -> or_default g "default" = gid ->
      r = Some game -> status game = running \/ JsMap.size (players game) = 0%nat) ->
  (forall h now, ev = timeout h now ->
      List.find (fun t => Nat.eqb (fst t) h) (timers s) = None) ->
  same_phase r r'.
Proof.
  intros Hc Hstart Htimeout.
  destruct Hc as [ev|? ? ? ? Hr0|sock u g ? ? ? Hg Hn Hst
                 |? ? ? ? game0 Hr0 Hg Hst Hsz|? ? ? ? game0 player Hr0 ? ? Hp
                 |sock game0 Hr0|? ? ? game0 Hr0 Hf].
  - apply same_phase_refl.
  - subst r. simpl. auto.
  - simpl. auto.
  - destruct (Hstart _ _ _ _ _ eq_refl Hg Hr0); contradiction.
  - subst r. simpl. auto.
  - subst r. simpl.
    destruct (disconnect_game_status sock gid game0) as (-> & _ & _ & -> & _).
    auto.
  - rewrite (Htimeout _ _ eq_refl) in Hf. discriminate.
Qed.

Lemma find_handle_fst h (ts : list (nat * string)) h' gid :
  List.find (fun t => Nat.eqb (fst t) h) ts = Some (h', gid) -> h' = h.
Proof.
  intros H. apply find_some in H. destruct H as [_ H].
  now apply Nat.eqb_eq in H.
Qed.

Lemma step_step_kind s ev : step_kind s (fst (step s ev)).
Proof.
  assert (Hquiet :
    timers (fst (step s ev)) = timers s ->
    nextHandle (fst (step s ev)) = nextHandle s ->
    (forall sock g ack now, ev = start_game sock g ack now ->
       let game := snd (createGameIfMissing (or_default g "default") (games s)) in
       status game = running \/ JsMap.size (players game) = 0%nat) ->
    (forall h now, ev = timeout h now ->
       List.find (fun t => Nat.eqb (fst t) h) (timers s) = None) ->
    step_kind s (fst (step s ev))).
  { intros Ht Hn Hs Hf. apply quiet_step; trivial.
    intros gid. eapply room_change_same_phase;
      [apply step_room_change| |exact Hf].
    intros sock g ack now game -> <- Hr.
    specialize (Hs _ _ _ _ eq_refl). cbv zeta in Hs.
    unfold room in Hr.
    now rewrite (createGameIfMissing_present _ _ _ Hr) in Hs. }
  destruct ev as [sock u g ack rnd now|sock g ack now|sock g p now|sock|h now|].
  - apply Hquiet; try discriminate; simpl.
    + pose proof (on_join_game_cases sock u g ack rnd now s) as H. cbv zeta in H.
      destruct H as [[_ ->]|[(_ & _ & ->)|(_ & _ & ->)]]; reflexivity.
    + pose proof (on_join_game_cases sock u g ack rnd now s) as H. cbv zeta in H.
      destruct H as [[_ ->]|[(_ & _ & ->)|(_ & _ & ->)]]; reflexivity.
  - pose proof (on_start_game_cases sock g ack now s) as H. cbv zeta in H.
    destruct H as [(Hst & Hsz & Heq)|[Hor [e Heq]]].
    + pose proof (createGameIfMissing_get (or_default g "default") (games s)) as Hget.
      rewrite createGameIfMissing_snd in *.
      destruct (JsMap.get (or_default g "default") (games s)) as [game|] eqn:E;
        [|now elim Hsz].
      simpl. rewrite Heq. simpl.
      eapply start_step with (gid0 := or_default g "default") (game0 := game);
        simpl; trivial.
      * unfold room. simpl. apply JsMapFacts.get_set_same.
      * reflexivity.
      * reflexivity.
      * intros gid Hne. unfold room. simpl.
        rewrite JsMapFacts.get_set_other by congruence.
        apply createGameIfMissing_other. congruence.
    + apply Hquiet; try discriminate; simpl; try (rewrite Heq; reflexivity).
      intros ? ? ? ? [= <- <- <- <-]. exact Hor.
  - apply Hquiet; try discriminate; simpl.
    + pose proof (on_tap_cases sock g p now s) as H. cbv zeta in H.
      destruct H as [(game & player & _ & _ & _ & ->)|[_ ->]]; reflexivity.
    + pose proof (on_tap_cases sock g p now s) as H. cbv zeta in H.
      destruct H as [(game & player & _ & _ & _ & ->)|[_ ->]]; reflexivity.
  - apply Hquiet; try discriminate; reflexivity.
  - destruct (find (fun t => Nat.eqb (fst t) h) (timers s)) as [[h' gid0]|] eqn:Hf.
    + pose proof (find_handle_fst _ _ _ _ Hf) as ->.
      apply fire_step with (h := h) (gid0 := gid0); trivial;
        simpl; unfold on_timeout, endNow; rewrite Hf; simpl;
        destruct (JsMap.get gid0 (games s)) as [game|] eqn:E; simpl;
        try reflexivity.
      * unfold room. simpl. rewrite E. simpl. apply JsMapFacts.get_set_same.
      * unfold room. now rewrite E.
      * intros gid Hne. unfold room. simpl.
        now apply JsMapFacts.get_set_other.
    + apply Hquiet; try discriminate; simpl; unfold on_timeout;
        try (rewrite Hf; reflexivity).
      intros ? ? [= <- <-]. exact Hf.
  - apply Hquiet; try discriminate; reflexivity.
Qed.

Lemma In_clearTimeout h ts t :
  In t (clearTimeout h ts) <-> In t ts /\ fst t <> h.
Proof.
  unfold clearTimeout. rewrite filter_In.
  destruct (Nat.eqb_spec (fst t) h); simpl; intuition congruence.
Qed.

Lemma NoDup_fst_clearTimeout h ts :
  NoDup (List.map fst ts) -> NoDup (List.map fst (clearTimeout h ts)).
Proof.
  induction ts as [|[h' g] ts IH]; simpl; intros Hnd; [constructor|].
  apply NoDup_cons_iff in Hnd. destruct Hnd as [Hh Hnd].
  destruct (Nat.eqb h' h); simpl; [now apply IH|].
  constructor; [|now apply IH].
  intros Hin. apply Hh. apply in_map_iff in Hin.
  destruct Hin as (t & <- & Hin). apply In_clearTimeout in Hin.
  apply in_map. tauto.
Qed.

Lemma NoDup_fst_same {A B} (l : list (A * B)) a b c :
  NoDup (List.map fst l) -> In (a, b) l -> In (a, c) l -> b = c.
Proof.
  induction l as [|[a' b'] l IH]; simpl; [tauto|].
  intros Hnd Hb Hc. apply NoDup_cons_iff in Hnd. destruct Hnd as [Ha Hnd].
  destruct Hb as [Hb|Hb], Hc as [Hc|Hc]; try congruence.
  - injection Hb as -> ->. exfalso. apply Ha.
    change a with (fst (a, c)). now apply in_map.
  - injection Hc as -> ->. exfalso. apply Ha.
    change a with (fst (a, b)). now apply in_map.
  - now apply IH.
Qed.

Lemma same_phase_Some r g' :
  same_phase r (Some g') ->
  forall h, timeoutHandle g' = Some h \/ status g' = running ->
  exists g, r = Some g /\ status g' = status g /\
            timeoutHandle g' = timeoutHandle g.
Proof.
  intros [Hs Ht] h Hor. destruct r as [g|]; simpl in *.
  - now exists g.
  - destruct Hor; congruence.
Qed.

Lemma quiet_timers_ok s s' :
  timers s' = timers s -> nextHandle s' = nextHandle s ->
  (forall gid, same_phase (room gid s) (room gid s')) ->
  timers_ok s -> timers_ok s'.
Proof.
  intros Ht Hn Hp [Hf Hhf Hnd Hown Harm Hdis].
  constructor; rewrite ?Ht, ?Hn; trivial.
  - intros gid g' h Hr Hh. pose proof (Hp gid) as Hsp. rewrite Hr in Hsp.
    destruct (same_phase_Some _ _ Hsp h (or_introl Hh)) as (g & Hg & _ & Hth).
    apply (Hhf gid g h Hg). congruence.
  - intros h gid Hin. destruct (Hown h gid Hin) as (g & Hg & Hst & Hh).
    pose proof (Hp gid) as Hsp. rewrite Hg in Hsp.
    destruct (room gid s') as [g'|]; simpl in Hsp; [|discriminate].
    exists g'. intuition congruence.
  - intros gid g' Hr Hst. pose proof (Hp gid) as Hsp. rewrite Hr in Hsp.
    destruct (same_phase_Some _ _ Hsp 0%nat (or_intror Hst)) as (g & Hg & Hs & Hth).
    destruct (Harm gid g Hg) as (h & Hh & Hin); [congruence|].
    exists h. split; [congruence|assumption].
  - intros gid1 gid2 g1' g2' h Hr1 Hr2 Hh1 Hh2.
    pose proof (Hp gid1) as Hsp1. rewrite Hr1 in Hsp1.
    pose proof (Hp gid2) as Hsp2. rewrite Hr2 in Hsp2.
    destruct (same_phase_Some _ _ Hsp1 h (or_introl Hh1)) as (g1 & Hg1 & _ & Ht1).
    destruct (same_phase_Some _ _ Hsp2 h (or_introl Hh2)) as (g2 & Hg2 & _ & Ht2).
    apply (Hdis gid1 gid2 g1 g2 h); congruence.
Qed.

Lemma start_timers_ok s s' gid0 game0 game0' :
  room gid0 s = Some game0 -> status game0 <> running ->
  room gid0 s' = Some game0' -> status game0' = running ->
  timeoutHandle game0' = Some (nextHandle s) ->
  timers s' =
    match timeoutHandle game0 with
    | Some h => clearTimeout h (timers s)
    | None => timers s
    end ++ [(nextHandle s, gid0)] ->
  nextHandle s' = S (nextHandle s) ->
  (forall gid, gid <> gid0 -> room gid s' = room gid s) ->
  timers_ok s -> timers_ok s'.
Proof.
  intros Hr0 Hst0 Hr0' Hst0' Hh0' Ht Hn Hother [Hf Hhf Hnd Hown Harm Hdis].
  set (base := match timeoutHandle game0 with
               | Some h => clearTimeout h (timers s)
               | None => timers s
               end) in *.
  assert (Hbase : forall t, In t base -> In t (timers s)).
  { subst base. destruct (timeoutHandle game0); [|auto].
    intros t Hin. now apply In_clearTimeout in Hin. }
  assert (Hbase_nd : NoDup (List.map fst base)).
  { subst base. destruct (timeoutHandle game0); [|auto].
    now apply NoDup_fst_clearTimeout. }
  constructor; rewrite ?Ht, ?Hn.
  - intros h gid Hin. apply in_app_or in Hin. destruct Hin as [Hin|[[= <- <-]|[]]].
    + apply Hbase, Hf in Hin. lia.
    + lia.
  - intros gid g' h Hr Hh. destruct (String.eqb_spec gid gid0) as [->|Hne].
    + assert (g' = game0') by congruence. subst g'.
      assert (h = nextHandle s) by congruence. lia.
    + rewrite Hother in Hr by assumption. specialize (Hhf gid g' h Hr Hh). lia.
  - rewrite map_app. simpl. apply NoDup_app; trivial.
    + repeat constructor. simpl. tauto.
    + intros h Hin [<-|[]]. apply in_map_iff in Hin.
      destruct Hin as ([h' g] & Heq & Hin). simpl in Heq. subst h'.
      apply Hbase, Hf in Hin. lia.
  - intros h gid Hin. apply in_app_or in Hin. destruct Hin as [Hin|[[= <- <-]|[]]].
    + apply Hbase in Hin. destruct (Hown h gid Hin) as (g & Hg & Hst & Hh).
      destruct (String.eqb_spec gid gid0) as [->|Hne]; [congruence|].
      exists g. rewrite Hother by assumption. auto.
    + exists game0'. auto.
  - intros gid g' Hr Hst. destruct (String.eqb_spec gid gid0) as [->|Hne].
    + assert (g' = game0') by congruence. subst g'.
      exists (nextHandle s). split; [assumption|].
      apply in_or_app. right. now left.
    + rewrite Hother in Hr by assumption.
      destruct (Harm gid g' Hr Hst) as (h & Hh & Hin).
      exists h. split; [assumption|]. apply in_or_app. left.
      subst base. destruct (timeoutHandle game0) as [h0|] eqn:E0; [|assumption].
      apply In_clearTimeout. split; [assumption|]. simpl. intros ->.
      apply Hne. now apply (Hdis gid gid0 g' game0 h0).
  - intros gid1 gid2 g1 g2 h Hr1 Hr2 Hh1 Hh2.
    destruct (String.eqb_spec gid1 gid0) as [->|Hne1],
             (String.eqb_spec gid2 gid0) as [->|Hne2]; trivial.
    + assert (g1 = game0') by congruence. subst g1.
      rewrite Hother in Hr2 by assumption.
      assert (h = nextHandle s) by congruence. subst h.
      specialize (Hhf gid2 g2 _ Hr2 Hh2). lia.
    + assert (g2 = game0') by congruence. subst g2.
      rewrite Hother in Hr1 by assumption.
      assert (h = nextHandle s) by congruence. subst h.
      specialize (Hhf gid1 g1 _ Hr1 Hh1). lia.
    + rewrite Hother in Hr1, Hr2 by assumption.
      now apply (Hdis gid1 gid2 g1 g2 h).
Qed.

Lemma fire_timers_ok s s' h gid0 :
  List.find (fun t => Nat.eqb (fst t) h) (timers s) = Some (h, gid0) ->
  timers s' = clearTimeout h (timers s) ->
  nextHandle s' = nextHandle s ->
  room gid0 s' = option_map (fun g => with_status g ended) (room gid0 s) ->
  (forall gid, gid <> gid0 -> room gid s' = room gid s) ->
  timers_ok s -> timers_ok s'.
Proof.
  intros Hfind Ht Hn Hr0' Hother [Hf Hhf Hnd Hown Harm Hdis].
  assert (Hin0 : In (h, gid0) (timers s)) by (now apply find_some in Hfind).
  destruct (Hown h gid0 Hin0) as (game0 & Hr0 & Hst0 & Hh0).
  rewrite Hr0 in Hr0'. simpl in Hr0'.
  assert (Hback : forall gid g',
             room gid s' = Some g' ->
             exists g, room gid s = Some g /\
                       timeoutHandle g' = timeoutHandle g /\
                       (gid <> gid0 -> g' = g) /\
                       (gid = gid0 -> status g' = ended)).
  { intros gid g' Hr. destruct (String.eqb_spec gid gid0) as [->|Hne].
    - exists game0. rewrite Hr0' in Hr. injection Hr as <-.
      repeat split; trivial. tauto.
    - rewrite Hother in Hr by assumption. exists g'. tauto. }
  constructor; rewrite ?Ht, ?Hn.
  - intros h1 gid Hin. apply In_clearTimeout in Hin. now apply (Hf h1 gid).
  - intros gid g' h1 Hr Hh. destruct (Hback gid g' Hr) as (g & Hg & Hth & _).
    apply (Hhf gid g h1 Hg). congruence.
  - now apply NoDup_fst_clearTimeout.
  - intros h1 gid Hin. apply In_clearTimeout in Hin. destruct Hin as [Hin Hne].
    simpl in Hne. destruct (Hown h1 gid Hin) as (g & Hg & Hst & Hh).
    destruct (String.eqb_spec gid gid0) as [->|Hg0]; [congruence|].
    exists g. rewrite Hother by assumption. auto.
  - intros gid g' Hr Hst. destruct (Hback gid g' Hr) as (g & Hg & Hth & Hsame & Hend).
    destruct (String.eqb_spec gid gid0) as [->|Hg0].
    + rewrite Hend in Hst by reflexivity. discriminate.
    + rewrite (Hsame Hg0) in *. destruct (Harm gid g Hg Hst) as (h1 & Hh1 & Hin).
      exists h1. split; [assumption|]. apply In_clearTimeout.
      split; [assumption|]. simpl. intros ->.
      apply Hg0. now apply (NoDup_fst_same (timers s) h).
  - intros gid1 gid2 g1' g2' h1 Hr1 Hr2 Hh1 Hh2.
    destruct (Hback gid1 g1' Hr1) as (g1 & Hg1 & Ht1 & _).
    destruct (Hback gid2 g2' Hr2) as (g2 & Hg2 & Ht2 & _).
    apply (Hdis gid1 gid2 g1 g2 h1); congruence.
Qed.

Lemma reachable_timers_ok s : reachable s -> timers_ok s.
Proof.
  induction 1 as [|s ev _ IH].
  - constructor; simpl; try tauto; try discriminate. constructor.
  - destruct (step_step_kind s ev) as [H1 H2 H3|gid0 g0 g0' H1 H2 H3 H4 H5 H6 H7 H8
                                      |h gid0 H1 H2 H3 H4 H5].
    + now apply (quiet_timers_ok s).
    + now apply (start_timers_ok s _ gid0 g0 g0').
    + now apply (fire_timers_ok s _ h gid0).
Qed.

(* ================================================================== *)
(** ** The end of a round *)

Lemma set_set_same {V} k (v : V) m :
  JsMap.set k v (JsMap.set k v m) = JsMap.set k v m.
Proof.
  induction m as [|[k' v'] m IH]; simpl.
  - now rewrite String.eqb_refl.
  - destruct (String.eqb_spec k' k) as [->|Hk]; simpl.
    + now rewrite String.eqb_refl.
    + destruct (String.eqb_spec k' k); [contradiction|]. now rewrite IH.
Qed.





Lemma find_cleared h ts :
  List.find (fun t => Nat.eqb (fst t) h) (clearTimeout h ts) = None.
Proof.
  destruct (find _ (clearTimeout h ts)) as [t|] eqn:E; [|reflexivity].
  apply find_some in E. destruct E as [Hin Heq].
  apply In_clearTimeout in Hin. apply Nat.eqb_eq in Heq. tauto.
Qed.

(** The callback on a registered game. *)
Lemma endNow_eq gid now s game :
  room gid s = Some game ->
  endNow gid now s =
    ({| games := JsMap.set gid (with_status game ended) (games s);
        recentGames :=
          recordGameToLeaderboard gid (with_status game ended) now (recentGames s);
        timers := timers s; nextHandle := nextHandle s |},
     [Emit gid (game_results gid (startTime game) (endTime game) TAP_WINDOW_MS
                  (fst (computeResults game)) (snd (computeResults game)))]).
Proof. unfold room, endNow. now intros ->. Qed.

(* ================================================================== *)
(** ** The scenarios of the specification *)

(** Taps exactly at the start and at the end of the window count; taps one
    millisecond before the start or after the end do not. *)
Example tap_at_window_bounds :
  let t0 := 1730563201000 in
  let pid := Some "player_k3j9x0w2nb40" in
  let after t := score "default" "player_k3j9x0w2nb40"
                       (fst (on_tap "s1" None pid t one_player_running)) in
  after t0 = Some 1 /\ after (t0 + 15000) = Some 1 /\
  after (t0 - 1) = Some 0 /\ after (t0 + 15001) = Some 0.
Proof. repeat split. Qed.

(** A joins, then B; the round starts; A taps five times and B three times;
    the window elapses: A=5, B=3, winner A.  A second start while the round
    runs is refused. *)
Example round_of_two :
  let a := "player_k3j9x0w2nb40" in
  let b := "player_7fq2m1c9nb41" in
  let evs :=
    [join_game "s1" (Some "A") None true "0.k3j9x0w2abc" 1730563200000;
     join_game "s2" (Some "B") None true "0.7fq2m1c9xyz" 1730563200001;
     start_game "s1" None true 1730563201000;
     start_game "s2" None true 1730563201001;
     tap "s1" None (Some a) 1730563202000; tap "s2" None (Some b) 1730563202001;
     tap "s1" None (Some a) 1730563203000; tap "s2" None (Some b) 1730563203001;
     tap "s1" None (Some a) 1730563204000; tap "s2" None (Some b) 1730563204001;
     tap "s1" None (Some a) 1730563205000; tap "s1" None (Some a) 1730563206000;
     timeout 0%nat 1730563216005;
     tap "s1" None (Some a) 1730563216006] in
  let out := snd (run initial_state evs) in
  In (Ack "s2" (AckError already_running)) out
  /\ In (Emit "default"
           (game_results "default" (Some 1730563201000) (Some 1730563216000) 15000
              [mkScore a "A" 5; mkScore b "B" 3] (Some (mkScore a "A" 5)))) out
  /\ score "default" a (fst (run initial_state evs)) = Some 5.
Proof. vm_compute. intuition. Qed.

(* ================================================================== *)
(** ** The scoring window in reachable states *)

Lemma room_change_window_ok s gid ev r' :
  timers_ok s ->
  room_change s gid (room gid s) ev r' ->
  (forall game, room gid s = Some game -> window_ok game) ->
  forall game', r' = Some game' -> window_ok game'.
Proof.
  intros Ht Hc Hok game' Hr'.
  assert (Hnew : window_ok (game_or_new (room gid s))).
  { destruct (room gid s) as [g|]; simpl; [now apply Hok|reflexivity]. }
  destruct Hc as [ev|? ? ? ? Hr0| |? ? ? ? game0 Hr0|? ? ? ? game0 player Hr0 ? ? Hp
                 |sock game0 Hr0|h h' now game0 Hr0 Hf];
    try (injection Hr' as <-).
  - now apply Hok.
  - reflexivity.
  - exact Hnew.
  - unfold window_ok. simpl. split; [discriminate|reflexivity].
  - now apply (Hok game0).
  - specialize (Hok _ Hr0). unfold window_ok in *.
    destruct (disconnect_game_status sock gid game0) as (-> & -> & -> & _).
    exact Hok.
  - specialize (Hok _ Hr0). unfold window_ok in *. simpl.
    apply find_some in Hf. destruct Hf as [Hin _].
    destruct (t_owner s Ht _ _ Hin) as (g & Hg & Hst & _).
    assert (g = game0) by congruence. subst g.
    destruct (startTime game0), (endTime game0); trivial.
    + split; [discriminate|tauto].
    + congruence.
Qed.

Lemma reachable_window_ok s :
  reachable s -> forall gid game, room gid s = Some game -> window_ok game.
Proof.
  induction 1 as [|s ev Hreach IH]; intros gid game' Hr'.
  - discriminate.
  - apply (room_change_window_ok s gid ev (room gid (fst (step s ev))));
      [now apply reachable_timers_ok|apply step_room_change| |exact Hr'].
    intros game Hr. now apply (IH gid).
Qed.

(** X1.  In every reachable state, a game in the lobby has neither
    [startTime] nor [endTime]; a game that has left the lobby has both, and
    [endTime] is [startTime] plus 15000 ms, so [startTime < endTime].  The
    two are never set one without the other. *)
Theorem window_invariant (s : State) (gid : string) (game : Game) :
  reachable s ->
  room gid s = Some game ->
  (status game = lobby <-> startTime game = None)
  /\ (startTime game = None <-> endTime game = None)
  /\ (forall st en, startTime game = Some st -> endTime game = Some en ->
                    st < en /\ en - st = 15000).
Proof.
  intros Hreach Hr.
  pose proof (reachable_window_ok s Hreach gid game Hr) as Hw.
  unfold window_ok, TAP_WINDOW_MS in Hw.
  destruct (startTime game) as [st|], (endTime game) as [en|]; try contradiction.
  - destruct Hw as [Hst ->]. split; [|split].
    + split; [intros H; contradiction|discriminate].
    + split; discriminate.
    + intros st' en' [= <-] [= <-]. lia.
  - split; [|split].
    + split; trivial.
    + split; trivial.
    + discriminate.
Qed.

Lemma window_invariant_witness :
  1730563201000 < 1730563216000 /\ 1730563216000 - 1730563201000 = 15000.
Proof.
  assert (Hreach : reachable running_empty_state)
    by (apply reachable_run; constructor).
  exact (proj2 (proj2 (window_invariant running_empty_state "default"
           {| status := running; players := [];
              startTime := Some 1730563201000;
              endTime := Some 1730563216000;
              timeoutHandle := Some 0%nat |} Hreach eq_refl))
           1730563201000 1730563216000 eq_refl eq_refl).
Defined.

(* ================================================================== *)
(** ** The outcome of [start_game] *)

(** X2.  [start_game] succeeds exactly when the game (created on the spot if
    it was missing) is not running and has a player, so an ended game can be
    started again.  On success every roster entry is kept, in the same order
    and with the same id, name and socket, with its taps set to zero, and the
    sender's acknowledgement carries the start time and duration that were
    broadcast.  On a running game nothing at all changes and the answer is
    [already_running]. *)
Theorem start_game_outcome sock p_gameId ack now s :
  let gid := or_default p_gameId "default" in
  let game := snd (createGameIfMissing gid (games s)) in
  let s' := fst (on_start_game sock p_gameId ack now s) in
  let out := snd (on_start_game sock p_gameId ack now s) in
  (start_succeeds out <->
     status game <> running /\ JsMap.size (players game) <> 0%nat)
  /\ (start_succeeds out ->
      out = Emit gid (game_start gid now 15000)
              :: send_ack ack sock (AckStarted gid now 15000)
      /\ exists game',
           room gid s' = Some game'
           /\ JsMap.keys (players game') = JsMap.keys (players game)
           /\ (forall pid p, JsMap.get pid (players game) = Some p ->
                 JsMap.get pid (players game') = Some (with_taps p 0))
           /\ (forall pid p', JsMap.get pid (players game') = Some p' ->
                 taps p' = 0))
  /\ (status game = running ->
      on_start_game sock p_gameId ack now s =
        (s, send_ack ack sock (AckError already_running))).
Proof.
  intros gid game s' out. subst s' out.
  pose proof (on_start_game_cases sock p_gameId ack now s) as H.
  cbv zeta in H. fold gid game in H.
  assert (Hfail : forall e,
             ~ start_succeeds (send_ack ack sock (AckError e))).
  { intros e (g & st & d & Hin). now apply send_ack_no_emit in Hin. }
  destruct H as [(Hst & Hsz & Heq)|[Hor [e Heq]]]; rewrite Heq; cbn [fst snd].
  - split; [|split].
    + split; [now intros _|]. intros _.
      exists gid, now, TAP_WINDOW_MS. now left.
    + intros _. split; [reflexivity|]. eexists. split; [|split; [|split]].
      * unfold room. cbn [games]. apply JsMapFacts.get_set_same.
      * cbn [players]. apply JsMapFacts.keys_map_values.
      * intros pid p Hp. cbn [players].
        now rewrite JsMapFacts.get_map_values, Hp.
      * intros pid p' Hp. cbn [players] in Hp.
        rewrite JsMapFacts.get_map_values in Hp.
        destruct (JsMap.get pid (players game)); [|discriminate].
        now injection Hp as <-.
    + intros Hrun. contradiction.
  - split; [|split].
    + split; [intros Hs; now apply Hfail in Hs|]. intros [Hst Hsz].
      destruct Hor; contradiction.
    + intros Hs. now apply Hfail in Hs.
    + intros Hrun. rewrite <- Heq. unfold on_start_game. fold gid.
      subst game. rewrite createGameIfMissing_snd in Hrun.
      destruct (JsMap.get gid (games s)) as [g0|] eqn:E; [|discriminate].
      rewrite (createGameIfMissing_present _ _ _ E).
      apply Status_eqb_eq in Hrun. rewrite Hrun.
      now rewrite with_games_same.
Qed.

(* ================================================================== *)
(** ** The registry over time *)

(** X3.  [createGameIfMissing] is a get-or-create: the game it returns is
    the one registered under the id afterwards; a second call changes nothing
    and returns the same game; a game already registered is returned as it is
    with the registry untouched; a missing one is appended as an empty lobby;
    no other id is affected. *)
Theorem createGameIfMissing_get_or_create (gid : string) (gs : JsMap.t Game) :
  let gs' := fst (createGameIfMissing gid gs) in
  let game := snd (createGameIfMissing gid gs) in
  JsMap.get gid gs' = Some game
  /\ createGameIfMissing gid gs' = (gs', game)
  /\ (forall gid', gid' <> gid -> JsMap.get gid' gs' = JsMap.get gid' gs)
  /\ (forall g0, JsMap.get gid gs = Some g0 -> gs' = gs /\ game = g0)
  /\ (JsMap.get gid gs = None ->
      game = new_game /\ gs' = gs ++ [(gid, new_game)]).
Proof.
  intros gs' game.
  assert (Hget : JsMap.get gid gs' = Some game) by apply createGameIfMissing_get.
  split; [exact Hget|]. split; [|split; [|split]].
  - now apply createGameIfMissing_present.
  - intros gid' Hne. apply createGameIfMissing_other. congruence.
  - intros g0 Hg. subst gs' game.
    now rewrite (createGameIfMissing_present _ _ _ Hg).
  - intros Hnone. subst gs' game. unfold createGameIfMissing.
    rewrite Hnone. simpl. split; [reflexivity|].
    now apply JsMapFacts.set_absent.
Qed.

Lemma createGameIfMissing_keys gid gs :
  exists new, JsMap.keys (fst (createGameIfMissing gid gs)) = JsMap.keys gs ++ new.
Proof.
  unfold createGameIfMissing. destruct (JsMap.get gid gs) eqn:E; simpl.
  - exists []. now rewrite app_nil_r.
  - exists [gid]. rewrite JsMapFacts.set_absent by assumption.
    unfold JsMap.keys. now rewrite map_app.
Qed.

Lemma keys_set_registered gid (game : Game) gs :
  JsMap.keys (JsMap.set gid game (fst (createGameIfMissing gid gs)))
  = JsMap.keys (fst (createGameIfMissing gid gs)).
Proof.
  apply JsMapFacts.keys_set_present. rewrite createGameIfMissing_get. discriminate.
Qed.

(** Every handler keeps the registered ids in their order and at most
    appends one. *)
Lemma step_games_keys s ev :
  exists new, JsMap.keys (games (fst (step s ev))) = JsMap.keys (games s) ++ new.
Proof.
  assert (Hsame : forall gs' : JsMap.t Game,
             JsMap.keys gs' = JsMap.keys (games s) ->
             exists new, JsMap.keys gs' = JsMap.keys (games s) ++ new).
  { intros gs' ->. exists []. now rewrite app_nil_r. }
  destruct ev as [sock u g ack rnd now|sock g ack now|sock g p now|sock|h now|];
    simpl.
  - pose proof (on_join_game_cases sock u g ack rnd now s) as H. cbv zeta in H.
    destruct H as [[_ ->]|[(_ & _ & ->)|(_ & _ & ->)]]; cbn [fst games with_games].
    + now apply Hsame.
    + apply createGameIfMissing_keys.
    + rewrite keys_set_registered. apply createGameIfMissing_keys.
  - pose proof (on_start_game_cases sock g ack now s) as H. cbv zeta in H.
    destruct H as [(_ & _ & ->)|[_ [e ->]]]; cbn [fst games with_games].
    + rewrite keys_set_registered. apply createGameIfMissing_keys.
    + apply createGameIfMissing_keys.
  - pose proof (on_tap_cases sock g p now s) as H. cbv zeta in H.
    destruct H as [(game & player & _ & Hr & _ & ->)|[_ ->]];
      cbn [fst games with_games]; apply Hsame; [|reflexivity].
    apply JsMapFacts.keys_set_present. unfold room in Hr. congruence.
  - apply Hsame. cbn [fst games with_games on_disconnect].
    unfold JsMap.keys. rewrite map_map. reflexivity.
  - apply Hsame. unfold on_timeout.
    destruct (find _ (timers s)) as [[h' gid]|]; [|reflexivity].
    unfold endNow. cbn [games].
    destruct (JsMap.get gid (games s)) eqn:E; [|reflexivity].
    cbn [fst games]. apply JsMapFacts.keys_set_present. congruence.
  - now apply Hsame.
Qed.

Lemma run_games_keys evs : forall s,
  exists new, JsMap.keys (games (fst (run s evs))) = JsMap.keys (games s) ++ new.
Proof.
  induction evs as [|ev evs IH]; intros s.
  - exists []. simpl. now rewrite app_nil_r.
  - rewrite run_cons. cbn [fst].
    destruct (step_games_keys s ev) as [new1 H1].
    destruct (IH (fst (step s ev))) as [new2 H2].
    exists (new1 ++ new2). now rewrite H2, H1, app_assoc.
Qed.

Lemma reachable_games_NoDup s : reachable s -> NoDup (JsMap.keys (games s)).
Proof.
  induction 1 as [|s ev _ IH]; [constructor|].
  destruct ev as [sock u g ack rnd now|sock g ack now|sock g p now|sock|h now|];
    simpl.
  - pose proof (on_join_game_cases sock u g ack rnd now s) as H. cbv zeta in H.
    unfold createGameIfMissing in H.
    destruct H as [[_ ->]|[(_ & _ & ->)|(_ & _ & ->)]];
      cbn [fst games with_games]; trivial;
      destruct (JsMap.get _ (games s)); cbn [fst];
      repeat apply JsMapFacts.NoDup_keys_set; trivial.
  - pose proof (on_start_game_cases sock g ack now s) as H. cbv zeta in H.
    unfold createGameIfMissing in H.
    destruct H as [(_ & _ & ->)|[_ [e ->]]];
      cbn [fst games with_games];
      destruct (JsMap.get _ (games s)); cbn [fst];
      repeat apply JsMapFacts.NoDup_keys_set; trivial.
  - pose proof (on_tap_cases sock g p now s) as H. cbv zeta in H.
    destruct H as [(game & player & _ & Hr & _ & ->)|[_ ->]];
      cbn [fst games with_games]; trivial.
    now apply JsMapFacts.NoDup_keys_set.
  - cbn [fst games with_games on_disconnect].
    unfold JsMap.keys. rewrite map_map. exact IH.
  - unfold on_timeout.
    destruct (find _ (timers s)) as [[h' gid]|]; [|exact IH].
    unfold endNow. cbn [games].
    destruct (JsMap.get gid (games s)) eqn:E; [|exact IH].
    cbn [fst games]. now apply JsMapFacts.NoDup_keys_set.
  - exact IH.
Qed.

(** X4.  Games are never removed or reordered: after any sequence of events
    the registered ids are those registered before, in the same order,
    followed by the ids of the games created meanwhile; so a game once
    registered stays registered.  In reachable states no id is registered
    twice. *)
Theorem registry_only_grows (evs : list Event) (s : State) :
  let s' := fst (run s evs) in
  (exists new, JsMap.keys (games s') = JsMap.keys (games s) ++ new)
  /\ (forall gid game, room gid s = Some game ->
        exists game', room gid s' = Some game')
  /\ (reachable s -> NoDup (JsMap.keys (games s'))).
Proof.
  intros s'. destruct (run_games_keys evs s) as [new Hk].
  split; [now exists new|]. split.
  - intros gid game Hr. unfold room in *.
    destruct (JsMap.get gid (games s')) as [game'|] eqn:E; [now exists game'|].
    apply JsMapFacts.get_None_keys in E. exfalso. apply E.
    fold s' in Hk. rewrite Hk. apply in_or_app. left.
    apply JsMapFacts.get_In in Hr.
    change gid with (fst (gid, game)). now apply in_map.
  - intros Hreach. apply reachable_games_NoDup. now apply reachable_run.
Qed.

(** X5.  Games are independent: a [join_game], [start_game] or [tap] that
    names another game, and a timeout that belongs to another game, leave a
    game exactly as it was (and do not create it).  Only [disconnect] reaches
    every game. *)
Theorem other_games_untouched (s : State) (ev : Event) (gid : string) :
  (forall sock, ev <> disconnect sock) ->
  target s ev <> Some gid ->
  room gid (fst (step s ev)) = room gid s.
Proof.
  intros Hnd Ht.
  pose proof (step_room_change s ev gid) as Hc.
  remember (room gid (fst (step s ev))) as r' eqn:Er'. clear Er'.
  destruct Hc as [ev|? ? ? ? Hr0 Hg|? ? ? ? ? ? Hg|? ? ? ? game0 Hr0 Hg
                 |? ? ? ? game0 player Hr0 Hg|sock game0 Hr0|h h' now game0 Hr0 Hf];
    trivial; simpl in Ht.
  - congruence.
  - congruence.
  - congruence.
  - congruence.
  - now elim (Hnd sock).
  - rewrite Hf in Ht. simpl in Ht. congruence.
Qed.

Lemma other_games_untouched_witness :
  room "default"
    (fst (step one_player_lobby
            (join_game "s2" (Some "Bob") (Some "other") true "0.zzz" 1730563200001)))
  = room "default" one_player_lobby.
Proof.
  apply (other_games_untouched one_player_lobby
           (join_game "s2" (Some "Bob") (Some "other") true "0.zzz" 1730563200001)
           "default").
  - discriminate.
  - simpl. discriminate.
Defined.

(* ================================================================== *)
(** ** Counting taps *)

Lemma tap_updates_app gid pid out1 out2 :
  tap_updates gid pid (out1 ++ out2)
  = tap_updates gid pid out1 ++ tap_updates gid pid out2.
Proof. apply filter_app. Qed.

(** One event that keeps the rosters: the count of ([gid], [pid]) goes up by
    the number of [tap_update] broadcasts made for that player. *)
Lemma step_counts_taps s ev gid pid n :
  keeps_rosters ev ->
  score gid pid s = Some n ->
  score gid pid (fst (step s ev))
  = Some (n + Z.of_nat (List.length (tap_updates gid pid (snd (step s ev))))).
Proof.
  intros Hk Hs.
  destruct ev as [| |sock g p now| |h now|]; try contradiction; simpl.
  - pose proof (on_tap_cases sock g p now s) as H. cbv zeta in H.
    destruct H as [(game & player & _ & Hr & Hp & ->)|[_ ->]]; cbn [fst snd].
    2:{ simpl. rewrite Hs. f_equal. lia. }
    rewrite score_with_games, JsMapFacts.get_set.
    unfold tap_updates. cbn [filter is_tap_update players with_players].
    destruct (String.eqb_spec (or_default g "default") gid) as [Hg|Hg];
      cbn [andb players with_players].
    + rewrite JsMapFacts.get_set.
      destruct (String.eqb_spec (or_default p "") pid) as [Hpid|Hpid].
      * subst gid pid. unfold score in Hs. rewrite Hr, Hp in Hs.
        injection Hs as <-. simpl. reflexivity.
      * subst gid. unfold score in Hs. rewrite Hr in Hs. rewrite Hs.
        simpl. f_equal. lia.
    + unfold score, room in Hs. rewrite Hs. simpl. f_equal. lia.
  - unfold on_timeout.
    destruct (find _ (timers s)) as [[h' gid0]|];
      [|simpl; rewrite Hs; f_equal; lia].
    unfold endNow, computeResults. cbn [games].
    destruct (JsMap.get gid0 (games s)) as [game|] eqn:E; cbn [fst snd].
    + unfold score, room. cbn [games]. rewrite JsMapFacts.get_set.
      destruct (String.eqb_spec gid0 gid) as [<-|Hne].
      * unfold score, room in Hs. rewrite E in Hs. cbn [players with_status].
        rewrite Hs. simpl. f_equal. lia.
      * unfold score, room in Hs. rewrite Hs. simpl. f_equal. lia.
    + unfold score, room in *. cbn [games]. rewrite Hs. simpl. f_equal. lia.
  - rewrite Hs. f_equal. lia.
Qed.

(** X6.  While nobody joins or leaves and no round is started, the count of
    a player grows by exactly the number of [tap_update] broadcasts the
    server makes for that player: every accepted tap is counted once and
    announced once, and nothing else changes the count, the end of the round
    included. *)
Theorem score_counts_broadcasts (evs : list Event) (s : State)
    (gid pid : string) (n : Z) :
  Forall keeps_rosters evs ->
  score gid pid s = Some n ->
  score gid pid (fst (run s evs))
  = Some (n + Z.of_nat (List.length (tap_updates gid pid (snd (run s evs))))).
Proof.
  revert s n. induction evs as [|ev evs IH]; intros s n Hk Hs.
  - simpl. rewrite Hs. f_equal. lia.
  - inversion Hk as [|? ? Hev Hk']; subst.
    rewrite run_cons. cbn [fst snd].
    rewrite tap_updates_app, length_app.
    rewrite (IH _ _ Hk' (step_counts_taps s ev gid pid n Hev Hs)).
    f_equal. lia.
Qed.

Lemma score_counts_broadcasts_witness :
  let pid := "player_k3j9x0w2nb40" in
  let evs := [tap "s1" None (Some pid) 1730563202000;
              tap "s2" None (Some pid) 1730563203000;
              tap "s1" None (Some pid) 1730563204000;
              timeout 0%nat 1730563216005;
              tap "s1" None (Some pid) 1730563216006] in
  score "default" pid (fst (run one_player_running evs)) = Some 2.
Proof.
  intros pid evs.
  apply (score_counts_broadcasts evs one_player_running "default" pid 0).
  - repeat constructor.
  - reflexivity.
Defined.

(* ================================================================== *)
(** ** What is sent, and to whom *)

(** X7.  Every broadcast goes to the room of the game it is about: the room
    a message is emitted to is the [gameId] in its payload. *)
Theorem broadcasts_stay_in_room (s : State) (ev : Event) (rm : string) (m : Message) :
  In (Emit rm m) (snd (step s ev)) -> message_gameId m = rm.
Proof.
  destruct ev as [sock u g ack rnd now|sock g ack now|sock g p now|sock|h now|];
    simpl.
  - pose proof (on_join_game_cases sock u g ack rnd now s) as H. cbv zeta in H.
    destruct H as [[_ ->]|[(_ & _ & ->)|(_ & _ & ->)]]; cbn [snd];
      intros Hin; try (now apply send_ack_no_emit in Hin).
    destruct Hin as [[= <- <-]|Hin]; [reflexivity|].
    now apply send_ack_no_emit in Hin.
  - pose proof (on_start_game_cases sock g ack now s) as H. cbv zeta in H.
    destruct H as [(_ & _ & ->)|[_ [e ->]]]; cbn [snd];
      intros Hin; try (now apply send_ack_no_emit in Hin).
    destruct Hin as [[= <- <-]|Hin]; [reflexivity|].
    now apply send_ack_no_emit in Hin.
  - pose proof (on_tap_cases sock g p now s) as H. cbv zeta in H.
    destruct H as [(game & player & _ & _ & _ & ->)|[_ ->]]; cbn [snd];
      [|intros []].
    intros [[= <- <-]|[]]. reflexivity.
  - intros Hin. apply in_flat_map in Hin. destruct Hin as ([k game] & _ & Hin).
    unfold disconnect_game in Hin. cbn [fst snd] in Hin.
    destruct (find_removed sock (players game)); [|contradiction].
    destruct (String.eqb s0 ""); cbn [snd] in Hin; [contradiction|].
    destruct Hin as [[= <- <-]|[]]. reflexivity.
  - unfold on_timeout. destruct (find _ _) as [[h' gid0]|]; [|intros []].
    unfold endNow. cbn [games]. destruct (JsMap.get gid0 (games s)); [|intros []].
    intros [[= <- <-]|[]]. reflexivity.
  - intros [H|[]]. discriminate.
Qed.

Lemma broadcasts_stay_in_room_witness :
  message_gameId (tap_update "default" "player_k3j9x0w2nb40" 1) = "default".
Proof.
  apply (broadcasts_stay_in_room one_player_running
           (tap "s1" None (Some "player_k3j9x0w2nb40") 1730563202000)).
  left. reflexivity.
Defined.

Lemma acks_send_ack ack sock a :
  acks (send_ack ack sock a) = if ack then [Ack sock a] else [].
Proof. now destruct ack. Qed.

(** X8.  A [join_game] or [start_game] sent with a callback is acknowledged
    exactly once, to its sender, whatever the outcome; without a callback,
    and for every other event, no acknowledgement is sent. *)
Theorem acknowledged_once (s : State) (ev : Event) :
  match ev with
  | join_game sock _ _ true _ _ | start_game sock _ true _ =>
      exists a, acks (snd (step s ev)) = [Ack sock a]
  | _ => acks (snd (step s ev)) = []
  end.
Proof.
  destruct ev as [sock u g ack rnd now|sock g ack now|sock g p now|sock|h now|].
  - assert (H : exists a, acks (snd (step s (join_game sock u g ack rnd now)))
                          = if ack then [Ack sock a] else []).
    { simpl.
      pose proof (on_join_game_cases sock u g ack rnd now s) as H. cbv zeta in H.
      destruct H as [[_ ->]|[(_ & _ & ->)|(_ & _ & ->)]]; cbn [snd];
        eexists; apply acks_send_ack. }
    destruct H as [a H]. destruct ack; [now exists a|exact H].
  - assert (H : exists a, acks (snd (step s (start_game sock g ack now)))
                          = if ack then [Ack sock a] else []).
    { simpl.
      pose proof (on_start_game_cases sock g ack now s) as H. cbv zeta in H.
      destruct H as [(_ & _ & ->)|[_ [e ->]]]; cbn [snd];
        eexists; apply acks_send_ack. }
    destruct H as [a H]. destruct ack; [now exists a|exact H].
  - simpl. pose proof (on_tap_cases sock g p now s) as H. cbv zeta in H.
    destruct H as [(game & player & _ & _ & _ & ->)|[_ ->]]; reflexivity.
  - simpl. induction (games s) as [|[k game] gs IH]; [reflexivity|].
    cbn [flat_map fst snd]. unfold acks in *. rewrite filter_app, IH, app_nil_r.
    unfold disconnect_game.
    destruct (find_removed sock (players game)); [|reflexivity].
    destruct (String.eqb s0 ""); reflexivity.
  - simpl. unfold on_timeout. destruct (find _ _) as [[h' gid0]|]; [|reflexivity].
    unfold endNow. cbn [games]. now destruct (JsMap.get gid0 (games s)).
  - reflexivity.
Qed.

(* ================================================================== *)
(** ** The history and the rounds *)

Lemma recordGameToLeaderboard_snoc gid game now recent :
  exists older,
    recordGameToLeaderboard gid game now recent
    = older ++ [result_record gid game now]
    /\ (older = recent \/ older = List.tl recent).
Proof.
  rewrite recordGameToLeaderboard_eq.
  destruct (MAX_LEADERBOARD_GAMES <? _)%nat eqn:E.
  - destruct recent as [|r0 recent].
    + simpl in E. discriminate.
    + exists recent. split; [reflexivity|now right].
  - exists recent. split; [reflexivity|now left].
Qed.

(** X9.  The record pushed at the end of a round is the newest item of the
    history, also when the history is full (only the oldest item can go); it
    carries the game's id, the time read by the callback, and the very
    ranking and winner that are broadcast in [game_results]. *)
Theorem round_end_record (gid : string) (now : Z) (s : State) (game : Game) :
  room gid s = Some game ->
  let s' := fst (endNow gid now s) in
  let out := snd (endNow gid now s) in
  exists older r,
    recentGames s' = older ++ [r]
    /\ (older = recentGames s \/ older = List.tl (recentGames s))
    /\ gameId r = gid /\ timestamp r = now
    /\ out = [Emit gid (game_results gid (startTime game) (endTime game) 15000
                          (scores r) (winner r))]
    /\ scores r = fst (computeResults game)
    /\ winner r = snd (computeResults game).
Proof.
  intros Hr s' out. subst s' out. rewrite (endNow_eq gid now s game Hr).
  cbn [fst snd recentGames].
  destruct (recordGameToLeaderboard_snoc gid (with_status game ended) now
              (recentGames s)) as (older & Heq & Hold).
  exists older, (result_record gid (with_status game ended) now).
  repeat split; trivial.
Qed.

Lemma round_end_record_witness :
  exists older r,
    recentGames (fst (endNow "default" 1730563216005 one_player_running))
      = older ++ [r]
    /\ gameId r = "default" /\ timestamp r = 1730563216005.
Proof.
  destruct (round_end_record "default" 1730563216005 one_player_running
              {| status := running;
                 players :=
                   [("player_k3j9x0w2nb40",
                     {| playerId := "player_k3j9x0w2nb40"; username := "Alice";
                        socketId := "s1"; taps := 0 |})];
                 startTime := Some 1730563201000;
                 endTime := Some 1730563216000;
                 timeoutHandle := Some 0%nat |} eq_refl)
    as (older & r & H1 & _ & H3 & H4 & _).
  exists older, r. repeat split; assumption.
Defined.

(** What a step does to the history: nothing, or a pending timeout fires
    and the record of its game is pushed. *)
Lemma step_recentGames_cases (s : State) (ev : Event) :
  recentGames (fst (step s ev)) = recentGames s
  \/ exists h now gid game,
       ev = timeout h now
       /\ List.find (fun t => Nat.eqb (fst t) h) (timers s) = Some (h, gid)
       /\ room gid s = Some game
       /\ recentGames (fst (step s ev))
          = recordGameToLeaderboard gid (with_status game ended) now
              (recentGames s).
Proof.
  destruct ev as [sock u g ack rnd now|sock g ack now|sock g p now|sock|h now|];
    simpl.
  - left. pose proof (on_join_game_cases sock u g ack rnd now s) as H.
    cbv zeta in H.
    destruct H as [[_ ->]|[(_ & _ & ->)|(_ & _ & ->)]]; reflexivity.
  - left. pose proof (on_start_game_cases sock g ack now s) as H.
    cbv zeta in H.
    destruct H as [(_ & _ & ->)|[_ [e ->]]]; reflexivity.
  - left. pose proof (on_tap_cases sock g p now s) as H. cbv zeta in H.
    destruct H as [(game & player & _ & _ & _ & ->)|[_ ->]]; reflexivity.
  - now left.
  - unfold on_timeout.
    destruct (find _ (timers s)) as [[h' gid]|] eqn:Hf; [|now left].
    pose proof (find_handle_fst _ _ _ _ Hf) as ->.
    unfold endNow, computeResults. cbn [games].
    destruct (JsMap.get gid (games s)) as [game|] eqn:E; [|now left].
    right. now exists h, now, gid, game.
  - now left.
Qed.

(** X10.  Only the end of a round writes the history: every event other
    than a timeout that is pending leaves [recentGames] as it is.  In
    particular starting the game again, with the taps reset, does not touch
    the records of its earlier rounds. *)
Theorem history_written_at_round_end_only (s : State) (ev : Event) :
  match ev with
  | timeout h _ => List.find (fun t => Nat.eqb (fst t) h) (timers s) = None
  | _ => True
  end ->
  recentGames (fst (step s ev)) = recentGames s.
Proof.
  intros Hev.
  destruct (step_recentGames_cases s ev)
    as [Hsame|(h & now & gid & game & -> & Hf & _)].
  - exact Hsame.
  - rewrite Hf in Hev. discriminate.
Qed.

Lemma history_written_at_round_end_only_witness :
  recentGames (fst (step one_round_played (start_game "s1" None true 1730563220000)))
  = recentGames one_round_played
  /\ score "default" "player_k3j9x0w2nb40"
       (fst (step one_round_played (start_game "s1" None true 1730563220000)))
     = Some 0
  /\ List.map (fun r => List.map s_taps (scores r)) (recentGames one_round_played)
     = [[1]].
Proof.
  split; [|split; reflexivity].
  apply (history_written_at_round_end_only one_round_played
           (start_game "s1" None true 1730563220000)).
  exact I.
Defined.

Lemma In_recordGameToLeaderboard r gid game now recent :
  In r (recordGameToLeaderboard gid game now recent) ->
  In r recent \/ r = result_record gid game now.
Proof.
  destruct (recordGameToLeaderboard_snoc gid game now recent)
    as (older & -> & Hold).
  intros Hin. apply in_app_or in Hin. destruct Hin as [Hin|[<-|[]]]; [|now right].
  left. destruct Hold as [->| ->]; [assumption|].
  destruct recent; [contradiction|]. now right.
Qed.

Lemma result_record_ok gid game now : record_ok (result_record gid game now).
Proof. split; [apply computeResults_sorted|reflexivity]. Qed.

Lemma step_keeps_registered s ev gid :
  room gid s <> None -> room gid (fst (step s ev)) <> None.
Proof.
  unfold room. intros H Hnone. apply JsMapFacts.get_None_keys in Hnone.
  apply Hnone. destruct (step_games_keys s ev) as [new ->].
  apply in_or_app. left.
  destruct (JsMap.get gid (games s)) as [game|] eqn:E; [|congruence].
  apply JsMapFacts.get_In in E. change gid with (fst (gid, game)).
  now apply in_map.
Qed.

(** The items of the history after a step: those before it, or the record
    of a registered game. *)
Lemma step_history s ev r :
  In r (recentGames (fst (step s ev))) ->
  In r (recentGames s) \/
  exists gid game now, r = result_record gid game now /\ room gid s <> None.
Proof.
  destruct (step_recentGames_cases s ev)
    as [->|(h & now & gid & game & _ & _ & Hr & ->)]; [tauto|].
  intros Hin. apply In_recordGameToLeaderboard in Hin.
  destruct Hin as [Hin|Hin]; [now left|right].
  exists gid, (with_status game ended), now. split; [assumption|]. congruence.
Qed.

(** X11.  In every reachable state each item of the history is a well-formed
    result: its ranking is sorted by taps, highest first, its winner is the
    first line of the ranking (none exactly when the ranking is empty), and
    its game is still registered. *)
Theorem history_items_well_formed (s : State) (r : RecentGame) :
  reachable s ->
  In r (recentGames s) ->
  StronglySorted score_ge (scores r)
  /\ winner r = List.hd_error (scores r)
  /\ (winner r = None <-> scores r = [])
  /\ room (gameId r) s <> None.
Proof.
  intros Hreach. revert r.
  assert (H : forall r, In r (recentGames s) ->
                        record_ok r /\ room (gameId r) s <> None).
  { induction Hreach as [|s ev Hreach IH]; intros r Hin; [contradiction|].
    apply step_history in Hin.
    destruct Hin as [Hin|(gid & game & now & -> & Hreg)].
    - destruct (IH r Hin) as [Hok Hreg]. split; [exact Hok|].
      now apply step_keeps_registered.
    - split; [apply result_record_ok|].
      cbn [gameId result_record]. now apply step_keeps_registered. }
  intros r Hin. destruct (H r Hin) as [[Hs Hw] Hreg].
  repeat split; trivial.
  - rewrite Hw. destruct (scores r); [reflexivity|discriminate].
  - intros Hnil. rewrite Hw, Hnil. reflexivity.
Qed.

Lemma history_items_well_formed_witness :
  exists r,
    winner r = List.hd_error (scores r) /\ room (gameId r) one_round_played <> None.
Proof.
  assert (Hreach : reachable one_round_played).
  { unfold one_round_played. apply reachable_run.
    unfold one_player_running. apply reachable_run. constructor. }
  eexists.
  refine (let H := history_items_well_formed one_round_played _ Hreach
                     (or_introl eq_refl) in _).
  destruct H as (_ & H2 & _ & H4). split; [exact H2|exact H4].
Defined.

(* ================================================================== *)
(** ** The leaderboard view, at its edges *)

Lemma In_firstn {A} k (l : list A) x : In x (firstn k l) -> In x l.
Proof.
  intros H. rewrite <- (firstn_skipn k l). apply in_or_app. now left.
Qed.

Lemma In_skipn {A} k (l : list A) x : In x (skipn k l) -> In x l.
Proof.
  intros H. rewrite <- (firstn_skipn k l). apply in_or_app. now right.
Qed.

Lemma array_slice_In {A} start stop (l : list A) x :
  In x (array_slice start stop l) -> In x l.
Proof.
  unfold array_slice. intros H.
  apply In_firstn in H. now apply In_skipn in H.
Qed.

Lemma In_allScores row recent :
  In row (allScores recent) <->
  exists g sc, In g recent /\ In sc (scores g) /\ row = row_of g sc.
Proof.
  unfold allScores, rows_of. rewrite in_flat_map. split.
  - intros (g & Hg & Hin). apply in_map_iff in Hin.
    destruct Hin as (sc & <- & Hsc). now exists g, sc.
  - intros (g & sc & Hg & Hsc & ->). exists g. split; [assumption|].
    apply in_map_iff. now exists sc.
Qed.

Lemma array_slice_from_0 {A} (n : Z) (l : list A) :
  array_slice 0 (Some n) l
  = firstn (Z.to_nat (slice_index (Z.of_nat (List.length l)) n)) l.
Proof.
  assert (H0 : slice_index (Z.of_nat (List.length l)) 0 = 0).
  { unfold slice_index. change (0 <? 0) with false. cbv iota.
    apply Z.min_l. lia. }
  unfold array_slice. cbv zeta. rewrite H0, Z.sub_0_r. reflexivity.
Qed.

(** X12.  [buildLeaderboardTopN n] for any number [n]: a count [n >= 0]
    gives the first [n] lines of the sorted list, all of them once [n]
    reaches their number; a negative [n] does not give an empty list but
    the sorted list without its last [-n] lines ([slice(0, n)] counts a
    negative end from the end).  The result is always a prefix of the sorted
    list. *)
Theorem leaderboard_top_n_any (recent : list RecentGame) (n : Z) :
  let sorted := array_sort by_taps_then_time (allScores recent) in
  let len := List.length sorted in
  (0 <= n -> buildLeaderboardTopN n recent = firstn (Z.to_nat n) sorted)
  /\ (Z.of_nat len <= n -> buildLeaderboardTopN n recent = sorted)
  /\ (n < 0 ->
      buildLeaderboardTopN n recent = firstn (len - Z.to_nat (- n)) sorted)
  /\ (exists k, buildLeaderboardTopN n recent = firstn k sorted)
  /\ (List.length (buildLeaderboardTopN n recent) <= len)%nat.
Proof.
  intros sorted len. subst len. unfold buildLeaderboardTopN. fold sorted.
  rewrite array_slice_from_0. unfold slice_index.
  split; [|split; [|split; [|split]]].
  - intros Hn. destruct (Z.ltb_spec n 0); [lia|].
    destruct (Z.le_ge_cases n (Z.of_nat (List.length sorted))).
    + now rewrite Z.min_l.
    + rewrite Z.min_r, Nat2Z.id by assumption.
      rewrite firstn_all. symmetry. apply firstn_all2. lia.
  - intros Hn. destruct (Z.ltb_spec n 0); [lia|].
    rewrite Z.min_r, Nat2Z.id by assumption. apply firstn_all.
  - intros Hn. destruct (Z.ltb_spec n 0); [|lia]. f_equal. lia.
  - now eexists.
  - rewrite length_firstn. lia.
Qed.

Lemma leaderboard_top_n_any_witness :
  buildLeaderboardTopN (-1) (recentGames one_round_played) = []
  /\ buildLeaderboardTopN 5 (recentGames one_round_played)
     = array_sort by_taps_then_time (allScores (recentGames one_round_played)).
Proof.
  destruct (leaderboard_top_n_any (recentGames one_round_played) (-1))
    as (_ & _ & Hneg & _).
  destruct (leaderboard_top_n_any (recentGames one_round_played) 5)
    as (_ & Hall & _).
  split.
  - now rewrite Hneg.
  - apply Hall. vm_compute. discriminate.
Defined.

Lemma hd_error_firstn {A} k (l : list A) x :
  List.hd_error (firstn k l) = Some x -> List.hd_error l = Some x.
Proof. destruct k, l; simpl; trivial; discriminate. Qed.

(** X13.  Every line of the leaderboard is a score line of a retained
    record, shown with that record's game id and timestamp; and the first
    line, when there is one, has the highest tap count of all retained score
    lines. *)
Theorem leaderboard_lines_from_history (recent : list RecentGame) (n : Z) :
  (forall row, In row (buildLeaderboardTopN n recent) ->
     exists g sc, In g recent /\ In sc (scores g) /\ row = row_of g sc)
  /\ (forall top, List.hd_error (buildLeaderboardTopN n recent) = Some top ->
      forall g sc, In g recent -> In sc (scores g) -> s_taps sc <= r_taps top).
Proof.
  split.
  - intros row Hin. apply array_slice_In in Hin.
    apply (Permutation_in _ (array_sort_perm by_taps_then_time _)) in Hin.
    now apply In_allScores.
  - intros top Htop g sc Hg Hsc.
    unfold buildLeaderboardTopN in Htop. rewrite array_slice_from_0 in Htop.
    apply hd_error_firstn in Htop.
    assert (Hin : In (row_of g sc)
                     (array_sort by_taps_then_time (allScores recent))).
    { apply (Permutation_in _ (Permutation_sym (array_sort_perm _ _))).
      apply In_allScores. now exists g, sc. }
    assert (Hsorted : StronglySorted (fun a b => by_taps_then_time a b <= 0)
                        (array_sort by_taps_then_time (allScores recent))).
    { apply array_sort_sorted.
      - intros a b H. apply by_taps_then_time_le.
        unfold by_taps_then_time, row_le in *.
        destruct (Z.eqb_spec (r_taps b - r_taps a) 0); lia.
      - intros a b c. rewrite !by_taps_then_time_le. unfold row_le. lia. }
    destruct (array_sort by_taps_then_time (allScores recent)) as [|t rest];
      [discriminate|].
    injection Htop as ->. destruct Hin as [->|Hin]; [simpl; lia|].
    apply StronglySorted_inv in Hsorted. destruct Hsorted as [_ Hall].
    rewrite Forall_forall in Hall. specialize (Hall _ Hin).
    apply by_taps_then_time_le in Hall. unfold row_le in Hall. simpl in Hall. lia.
Qed.

Lemma array_slice_last {A} (k : nat) (l : list A) :
  (0 < k)%nat ->
  array_slice (- Z.of_nat k) None l = skipn (List.length l - k) l.
Proof.
  intros Hk. unfold array_slice, slice_index.
  destruct (Z.ltb_spec (- Z.of_nat k) 0) as [Hneg|Hz]; [|lia].
  replace (Z.to_nat (Z.max (Z.of_nat (List.length l) + - Z.of_nat k) 0))
    with (List.length l - k)%nat by lia.
  apply firstn_all2. rewrite length_skipn. lia.
Qed.

(** X14.  [GET /leaderboard] answers with at most ten leaderboard lines and
    with the last ten records of the history, oldest first (all of them when
    there are fewer), and changes nothing. *)
Theorem leaderboard_response (s : State) :
  exists top recent,
    on_get_leaderboard s = (s, [Json top recent])
    /\ top = firstn 10 (array_sort by_taps_then_time (allScores (recentGames s)))
    /\ (List.length top <= 10)%nat
    /\ recent = skipn (List.length (recentGames s) - 10) (recentGames s)
    /\ List.length recent = Nat.min 10 (List.length (recentGames s)).
Proof.
  unfold on_get_leaderboard. eexists _, _. split; [reflexivity|].
  split; [|split; [|split]].
  - apply (array_slice_prefix 10).
  - unfold buildLeaderboardTopN. rewrite (array_slice_prefix 10).
    rewrite length_firstn. lia.
  - apply (array_slice_last 10). lia.
  - rewrite (array_slice_last 10), length_skipn by lia. lia.
Qed.

(* ================================================================== *)
(** ** Roster entries of reachable states *)

Lemma trim_start_not_white s : starts_white (trim_start s) = false.
Proof.
  induction s as [|c s IH]; simpl; [reflexivity|].
  destruct (is_white_space c) eqn:E; [exact IH|]. simpl. exact E.
Qed.

Lemma trim_start_id s : starts_white s = false -> trim_start s = s.
Proof. destruct s as [|c s]; simpl; [reflexivity|]. now intros ->. Qed.

Lemma trim_end_idem s : trim_end (trim_end s) = trim_end s.
Proof.
  induction s as [|c s IH]; simpl; [reflexivity|].
  destruct (trim_end s) as [|d r] eqn:E.
  - destruct (is_white_space c) eqn:Ec; simpl; [reflexivity|]. now rewrite Ec.
  - change (trim_end (String c (String d r)))
      with (match trim_end (String d r) with
            | EmptyString =>
                if is_white_space c then EmptyString else String c EmptyString
            | String d' r' => String c (String d' r')
            end).
    now rewrite IH.
Qed.

Lemma trim_end_not_white s : starts_white s = false -> starts_white (trim_end s) = false.
Proof.
  destruct s as [|c s]; simpl; [reflexivity|]. intros Hc.
  destruct (trim_end s); [now rewrite Hc|exact Hc].
Qed.

Lemma trim_idem s : trim (trim s) = trim s.
Proof.
  unfold trim.
  rewrite (trim_start_id (trim_end (trim_start s))).
  - apply trim_end_idem.
  - apply trim_end_not_white, trim_start_not_white.
Qed.

Lemma string_length_append (a b : string) :
  String.length (a ++ b)%string = (String.length a + String.length b)%nat.
Proof. induction a as [|c a IH]; simpl; [reflexivity|]. now rewrite IH. Qed.

Lemma substring_length_le n m s : (String.length (String.substring n m s) <= m)%nat.
Proof.
  revert n m. induction s as [|c s IH]; intros n m.
  - destruct n, m; simpl; lia.
  - destruct n as [|n]; destruct m as [|m]; simpl.
    + lia.
    + specialize (IH 0%nat m). lia.
    + apply (IH n 0%nat).
    + apply (IH n (S m)).
Qed.

Lemma substring_length_le_string n m s :
  (String.length (String.substring n m s) <= String.length s)%nat.
Proof.
  revert n m. induction s as [|c s IH]; intros n m.
  - destruct n, m; simpl; lia.
  - destruct n as [|n]; destruct m as [|m]; simpl.
    + lia.
    + specialize (IH 0%nat m). lia.
    + specialize (IH n 0%nat). lia.
    + specialize (IH n (S m)). lia.
Qed.

(** [generateId] returns the prefix, an underscore, and at most eight plus
    four characters. *)
Lemma generateId_length prefix rnd now :
  (String.length (generateId prefix rnd now) <= String.length prefix + 13)%nat.
Proof.
  unfold generateId, string_slice, slice_index.
  rewrite !string_length_append. simpl String.length.
  set (l1 := Z.of_nat (String.length rnd)).
  set (l2 := Z.of_nat (String.length (toString36 now))).
  change (2 <? 0) with false. change (10 <? 0) with false.
  change (-4 <? 0) with true. cbv iota.
  pose proof (substring_length_le (Z.to_nat (Z.min 2 l1))
                (Z.to_nat (Z.min 10 l1 - Z.min 2 l1)) rnd).
  pose proof (substring_length_le (Z.to_nat (Z.max (l2 + -4) 0))
                (Z.to_nat (l2 - Z.max (l2 + -4) 0)) (toString36 now)).
  lia.
Qed.

Lemma generateId_player_prefix rnd now :
  String.prefix "player_" (generateId "player" rnd now) = true.
Proof.
  unfold generateId.
  set (rest := (string_slice 2 (Some 10) rnd
                ++ string_slice (-4) None (toString36 now))%string).
  simpl. now destruct rest.
Qed.

Lemma In_set {V} k (v : V) m x :
  In x (JsMap.set k v m) -> x = (k, v) \/ In x m.
Proof.
  induction m as [|[k' v'] m IH]; simpl.
  - intros [<-|[]]. now left.
  - destruct (String.eqb k' k); simpl; intuition.
Qed.

Lemma In_delete {V} k (m : JsMap.t V) x : In x (JsMap.delete k m) -> In x m.
Proof.
  induction m as [|[k' v'] m IH]; simpl; [tauto|].
  destruct (String.eqb k' k); simpl; intuition.
Qed.

Lemma room_change_entries_ok s gid r ev r' :
  room_change s gid r ev r' ->
  (forall game, r = Some game -> entries_ok game) ->
  forall game', r' = Some game' -> entries_ok game'.
Proof.
  intros Hc Hok game' Hr'.
  assert (Hnew : entries_ok (game_or_new r)).
  { destruct r as [g|]; simpl; [now apply Hok|]. intros pid p []. }
  destruct Hc as [ev|? ? ? ? Hr0|sock u g ? rnd now Hg Hn Hst
                 |? ? ? ? game0 Hr0|? ? p0 ? game0 player Hr0 ? ? Hp
                 |sock game0 Hr0|? ? ? game0 Hr0];
    try (injection Hr' as <-); try (specialize (Hok _ Hr0)).
  - now apply Hok.
  - intros pid p [].
  - intros pid p Hin. cbn [players with_players] in Hin.
    apply In_set in Hin. destruct Hin as [[= -> ->]|Hin]; [|now apply Hnew].
    unfold entry_ok. cbn [playerId taps username].
    split; [reflexivity|]. split; [apply generateId_player_prefix|].
    split; [apply (generateId_length "player")|].
    split; [lia|]. split; [exact Hn|apply trim_idem].
  - intros pid p Hin. cbn [players] in Hin.
    unfold JsMap.map_values in Hin. apply in_map_iff in Hin.
    destruct Hin as ([k v] & [= <- <-] & Hin). cbn [fst snd].
    destruct (Hok k v Hin) as (E1 & E2 & E3 & E4 & E5 & E6).
    unfold entry_ok. cbn [playerId taps username with_taps].
    repeat split; trivial. lia.
  - intros pid p Hin. cbn [players with_players] in Hin.
    apply In_set in Hin. destruct Hin as [[= -> ->]|Hin]; [|now apply Hok].
    apply JsMapFacts.get_In in Hp.
    destruct (Hok _ _ Hp) as (E1 & E2 & E3 & E4 & E5 & E6).
    unfold entry_ok. cbn [playerId taps username with_taps].
    repeat split; trivial. lia.
  - intros pid p Hin. apply Hok. unfold disconnect_game in Hin.
    destruct (find_removed sock (players game0)); [|exact Hin].
    destruct (String.eqb s0 ""); [exact Hin|].
    cbn [fst players with_players] in Hin. now apply In_delete in Hin.
  - exact Hok.
Qed.

(** X15.  In every reachable state each roster entry is filed under its own
    [playerId]; the id is ["player_"] followed by at most twelve characters
    (so it is never empty); the tap count is not negative; and the name is
    the trimmed name given at the join: not empty, without white space at
    either end. *)
Theorem roster_entries_well_formed (s : State) (gid : string) (game : Game)
    (pid : string) (p : Player) :
  reachable s ->
  room gid s = Some game ->
  In (pid, p) (players game) ->
  playerId p = pid
  /\ String.prefix "player_" pid = true
  /\ (7 <= String.length pid <= 19)%nat
  /\ 0 <= taps p
  /\ username p <> ""
  /\ trim (username p) = username p.
Proof.
  intros Hreach. revert gid game pid p.
  assert (H : forall gid game, room gid s = Some game -> entries_ok game).
  { induction Hreach as [|s ev _ IH]; intros gid game' Hr'; [discriminate|].
    eapply room_change_entries_ok; [apply step_room_change| |exact Hr'].
    intros game Hr. now apply (IH gid). }
  intros gid game pid p Hr Hin.
  destruct (H gid game Hr pid p Hin) as (H1 & H2 & H3 & H4 & H5 & H6).
  repeat split; trivial.
  pose proof (String.prefix_correct "player_" pid) as Hp.
  apply Hp in H2. apply (f_equal String.length) in H2.
  pose proof (substring_length_le_string 0 7 pid) as Hle.
  simpl in H2. simpl in Hle. lia.
Qed.

Lemma roster_entries_well_formed_witness :
  String.prefix "player_" "player_k3j9x0w2nb40" = true
  /\ trim "Alice" = "Alice".
Proof.
  assert (Hreach : reachable one_player_running)
    by (apply reachable_run; constructor).
  destruct (roster_entries_well_formed one_player_running "default" _
              "player_k3j9x0w2nb40"
              {| playerId := "player_k3j9x0w2nb40"; username := "Alice";
                 socketId := "s1"; taps := 0 |}
              Hreach eq_refl (or_introl eq_refl))
    as (_ & H2 & _ & _ & _ & H6).
  split; [exact H2|exact H6].
Defined.

(* ================================================================== *)
(** ** Disconnecting twice *)

Lemma find_removed_none sock ps :
  ~ In sock (List.map socketId (JsMap.values ps)) -> find_removed sock ps = None.
Proof.
  intros Hnin. unfold find_removed.
  destruct (find _ ps) as [[pid p]|] eqn:E; [|reflexivity].
  apply find_some in E. destruct E as [Hin Heq]. simpl in Heq.
  apply String.eqb_eq in Heq. exfalso. apply Hnin. rewrite <- Heq.
  apply in_map. unfold JsMap.values. change p with (snd (pid, p)).
  now apply in_map.
Qed.

Lemma disconnect_game_absent sock gid game :
  ~ In sock (handles game) -> disconnect_game sock gid game = (game, []).
Proof.
  intros Hnin. unfold disconnect_game.
  now rewrite (find_removed_none sock (players game) Hnin).
Qed.

(** After [disconnect_game] a connection with at most one entry has none. *)
Lemma disconnect_game_clears sock gid game :
  roster_ok game -> handle_unique game ->
  ~ In sock (handles (fst (disconnect_game sock gid game))).
Proof.
  intros Hok Hu. unfold handles.
  rewrite (disconnect_game_players sock gid game Hok), remove_first_all
    by assumption.
  intros Hin. apply in_map_iff in Hin. destruct Hin as (p & Hsock & Hin).
  unfold JsMap.values in Hin. apply in_map_iff in Hin.
  destruct Hin as ([k v] & <- & Hin). apply filter_In in Hin.
  destruct Hin as [_ Hneg]. unfold on_socket in Hneg. simpl in *.
  rewrite Hsock, String.eqb_refl in Hneg. discriminate.
Qed.

Lemma flat_map_nil {A B} (f : A -> list B) l :
  (forall x, In x l -> f x = []) -> flat_map f l = [].
Proof.
  induction l as [|x l IH]; simpl; intros H; [reflexivity|].
  rewrite (H x) by now left. apply IH. intros y Hy. apply H. now right.
Qed.

Lemma map_id_in {A} (f : A -> A) l :
  (forall x, In x l -> f x = x) -> List.map f l = l.
Proof.
  induction l as [|x l IH]; simpl; intros H; [reflexivity|].
  rewrite (H x) by now left. f_equal. apply IH. intros y Hy. apply H. now right.
Qed.

(** X16.  In a reachable state, the disconnect of a connection that is in no
    roster changes nothing and sends nothing.  And where every connection
    has at most one entry per game, a disconnect leaves the connection in no
    roster, so a second disconnect of the same connection is such a no-op. *)
Theorem disconnect_is_idempotent (s : State) (sock : string) :
  reachable s ->
  (~ joined sock s -> on_disconnect sock s = (s, []))
  /\ (handles_unique s ->
      ~ joined sock (fst (on_disconnect sock s))
      /\ on_disconnect sock (fst (on_disconnect sock s))
         = (fst (on_disconnect sock s), [])).
Proof.
  assert (Hnoop : forall s0, reachable s0 -> ~ joined sock s0 ->
                             on_disconnect sock s0 = (s0, [])).
  { intros s0 Hreach Hnj.
    assert (Hall : forall kv, In kv (games s0) ->
                     disconnect_game sock (fst kv) (snd kv) = (snd kv, [])).
    { intros [gid game] Hin. simpl. apply disconnect_game_absent.
      intros Hh. apply Hnj. exists gid, game. split; [|exact Hh].
      apply JsMapFacts.In_get; [|exact Hin].
      now apply reachable_games_NoDup. }
    unfold on_disconnect. f_equal.
    - rewrite map_id_in; [apply with_games_same|].
      intros [gid game] Hin. now rewrite (Hall _ Hin).
    - apply flat_map_nil. intros kv Hin. now rewrite (Hall _ Hin). }
  intros Hreach. split; [now apply Hnoop|].
  intros Hu.
  assert (Hclear : ~ joined sock (fst (on_disconnect sock s))).
  { intros (gid & game' & Hr' & Hin).
    unfold room in Hr'. cbn [fst on_disconnect games with_games] in Hr'.
    rewrite (get_map_entries (fun k v => fst (disconnect_game sock k v))) in Hr'.
    destruct (JsMap.get gid (games s)) as [game|] eqn:E; [|discriminate].
    injection Hr' as <-. revert Hin.
    apply disconnect_game_clears.
    - now apply (reachable_rosters_ok s Hreach gid).
    - now apply (Hu gid). }
  split; [exact Hclear|].
  apply Hnoop; [|exact Hclear].
  apply (reachable_step s (disconnect sock) Hreach).
Qed.

Lemma disconnect_is_idempotent_witness :
  on_disconnect "s7" one_player_running = (one_player_running, [])
  /\ on_disconnect "s1" (fst (on_disconnect "s1" one_player_running))
     = (fst (on_disconnect "s1" one_player_running), []).
Proof.
  assert (Hreach : reachable one_player_running)
    by (apply reachable_run; constructor).
  assert (Hgames : forall gid game,
             room gid one_player_running = Some game ->
             handles game = ["s1"]).
  { intros gid game Hr. unfold room in Hr.
    change (games one_player_running)
      with [("default",
             {| status := running;
                players :=
                  [("player_k3j9x0w2nb40",
                    {| playerId := "player_k3j9x0w2nb40"; username := "Alice";
                       socketId := "s1"; taps := 0 |})];
                startTime := Some 1730563201000;
                endTime := Some 1730563216000;
                timeoutHandle := Some 0%nat |})] in Hr.
    cbn [JsMap.get] in Hr.
    destruct (String.eqb "default" gid); [|discriminate].
    now injection Hr as <-. }
  destruct (disconnect_is_idempotent one_player_running "s7" Hreach) as [H1 _].
  destruct (disconnect_is_idempotent one_player_running "s1" Hreach) as [_ H2].
  split.
  - apply H1. intros (gid & game & Hr & Hin).
    rewrite (Hgames gid game Hr) in Hin. destruct Hin as [Hin|[]]. discriminate.
  - apply H2. intros gid game Hr. unfold handle_unique.
    rewrite (Hgames gid game Hr). repeat constructor. simpl. tauto.
Defined.

(* ================================================================== *)
(** ** When two generated ids are equal *)

Lemma string_app_assoc (a b c : string) :
  ((a ++ b) ++ c = a ++ (b ++ c))%string.
Proof. induction a as [|x a IH]; simpl; [reflexivity|]. now rewrite IH. Qed.

Lemma string_app_nil_r (a : string) : (a ++ "")%string = a.
Proof. induction a as [|x a IH]; simpl; [reflexivity|]. now rewrite IH. Qed.

Lemma string_app_inv_head (p x y : string) :
  (p ++ x = p ++ y)%string -> x = y.
Proof. induction p as [|c p IH]; simpl; [trivial|]. intros [= H]. now apply IH. Qed.

(** Two concatenations with tails of the same length are equal piece by
    piece. *)
Lemma string_app_inv_tail (a1 a2 s1 s2 : string) :
  (a1 ++ s1 = a2 ++ s2)%string -> String.length s1 = String.length s2 ->
  a1 = a2 /\ s1 = s2.
Proof.
  revert a2. induction a1 as [|c a1 IH]; intros [|c' a2] H Hlen; simpl in H.
  - now split.
  - apply (f_equal String.length) in H. simpl in H.
    rewrite string_length_append in H. lia.
  - apply (f_equal String.length) in H. simpl in H.
    rewrite string_length_append in H. lia.
  - injection H as -> H. destruct (IH a2 H Hlen) as [-> ->]. now split.
Qed.

Lemma substring_skip_app (pre s : string) m :
  String.substring (String.length pre) m (pre ++ s) = String.substring 0 m s.
Proof. induction pre as [|c pre IH]; simpl; [reflexivity|exact IH]. Qed.

Lemma substring_whole (s : string) : String.substring 0 (String.length s) s = s.
Proof. induction s as [|c s IH]; simpl; [reflexivity|]. now rewrite IH. Qed.

(** [slice(-4)] of a string that ends with four characters is those four. *)
Lemma string_slice_last4 (pre four : string) :
  String.length four = 4%nat ->
  string_slice (-4) None (pre ++ four) = four.
Proof.
  intros Hlen. unfold string_slice, slice_index.
  change (-4 <? 0) with true. cbv iota.
  rewrite string_length_append, Hlen.
  replace (Z.to_nat (Z.max (Z.of_nat (String.length pre + 4) + -4) 0))
    with (String.length pre) by lia.
  replace (Z.to_nat (Z.of_nat (String.length pre + 4)
                     - Z.max (Z.of_nat (String.length pre + 4) + -4) 0))
    with (String.length four) by lia.
  rewrite substring_skip_app. apply substring_whole.
Qed.

Lemma digit36_inj a b : (a < 36)%N -> (b < 36)%N -> digit36 a = digit36 b -> a = b.
Proof.
  intros Ha Hb H. apply (f_equal N_of_ascii) in H. unfold digit36 in H.
  destruct (N.ltb_spec a 10), (N.ltb_spec b 10);
    rewrite !N_ascii_embedding in H by lia; lia.
Qed.

Lemma digits36_length k : forall n, String.length (digits36 k n) = k.
Proof.
  induction k as [|k IH]; intros n; simpl; [reflexivity|].
  rewrite string_length_append, IH. simpl. lia.
Qed.

Lemma pow36_succ k : (36 ^ N.of_nat (S k) = 36 * 36 ^ N.of_nat k)%N.
Proof.
  replace (N.of_nat (S k)) with (N.succ (N.of_nat k)) by lia.
  apply N.pow_succ_r'.
Qed.

(** The [k] lowest digits are those of the number modulo [36^k]. *)
Lemma digits36_mod k : forall n1 n2,
  digits36 k n1 = digits36 k n2 <->
  (n1 mod 36 ^ N.of_nat k = n2 mod 36 ^ N.of_nat k)%N.
Proof.
  induction k as [|k IH]; intros n1 n2.
  - simpl. rewrite !N.mod_1_r. tauto.
  - rewrite pow36_succ, !N.Div0.mod_mul_r. cbn [digits36].
    pose proof (N.mod_upper_bound n1 36 ltac:(discriminate)) as B1.
    pose proof (N.mod_upper_bound n2 36 ltac:(discriminate)) as B2.
    split.
    + intros H. apply string_app_inv_tail in H; [|reflexivity].
      destruct H as [Hhigh Hlow]. injection Hlow as Hlow.
      apply digit36_inj in Hlow; trivial. apply IH in Hhigh.
      now rewrite Hlow, Hhigh.
    + intros H.
      set (a1 := (n1 mod 36)%N) in *. set (a2 := (n2 mod 36)%N) in *.
      set (b1 := ((n1 / 36) mod 36 ^ N.of_nat k)%N) in *.
      set (b2 := ((n2 / 36) mod 36 ^ N.of_nat k)%N) in *.
      assert (Hlow : a1 = a2) by lia.
      assert (Hhigh : b1 = b2) by lia.
      subst a1 a2 b1 b2. apply IH in Hhigh. now rewrite Hhigh, Hlow.
Qed.

Lemma toString36_pos_acc fuel : forall n acc,
  exists pre, toString36_pos fuel n acc = (pre ++ acc)%string.
Proof.
  induction fuel as [|fuel IH]; intros n acc; simpl.
  - now exists EmptyString.
  - destruct (n / 36 =? 0)%N.
    + now exists (String (digit36 (n mod 36)) EmptyString).
    + destruct (IH (n / 36)%N (String (digit36 (n mod 36)) acc)) as [pre ->].
      exists (pre ++ String (digit36 (n mod 36)) EmptyString)%string.
      now rewrite string_app_assoc.
Qed.

(** A number of at least [36^k] is printed with at least [k + 1] digits,
    the last [k + 1] being its lowest ones. *)
Lemma toString36_pos_low k : forall fuel n acc,
  (S k <= fuel)%nat -> (36 ^ N.of_nat k <= n)%N ->
  exists pre, toString36_pos fuel n acc = (pre ++ digits36 (S k) n ++ acc)%string.
Proof.
  induction k as [|k IH]; intros [|fuel] n acc Hfuel Hn; try lia.
  - simpl. destruct (n / 36 =? 0)%N.
    + now exists EmptyString.
    + destruct (toString36_pos_acc fuel (n / 36)%N
                  (String (digit36 (n mod 36)) acc)) as [pre ->].
      now exists pre.
  - rewrite pow36_succ in Hn.
    assert (Hq : (36 ^ N.of_nat k <= n / 36)%N).
    { apply N.div_le_lower_bound; [discriminate|exact Hn]. }
    assert (Hpos : (0 < 36 ^ N.of_nat k)%N).
    { apply N.neq_0_lt_0, N.pow_nonzero. discriminate. }
    cbn [toString36_pos].
    destruct (N.eqb_spec (n / 36) 0) as [E|_]; [lia|].
    destruct (IH fuel (n / 36)%N (String (digit36 (n mod 36)) acc))
      as [pre ->]; [lia|exact Hq|].
    exists pre. f_equal. cbn [digits36].
    now rewrite !string_app_assoc.
Qed.

Lemma toString36_low4 now :
  46656 <= now ->
  exists pre, toString36 now = (pre ++ digits36 4 (Z.to_N now))%string.
Proof.
  intros Hnow. unfold toString36.
  destruct (Z.ltb_spec now 0); [lia|].
  replace (Z.abs_N now) with (Z.to_N now) by lia.
  assert (Hn : (36 ^ N.of_nat 3 <= Z.to_N now)%N).
  { change (36 ^ N.of_nat 3)%N with 46656%N. lia. }
  assert (Hlog : (15 <= N.log2 (Z.to_N now))%N).
  { change 15%N with (N.log2 46656). apply N.log2_le_mono. lia. }
  destruct (toString36_pos_low 3 (S (N.to_nat (N.log2 (Z.to_N now))))
              (Z.to_N now) EmptyString) as [pre Hpre]; [lia|exact Hn|].
  exists pre. now rewrite Hpre, string_app_nil_r.
Qed.

Lemma generateId_eq prefix rnd now :
  46656 <= now ->
  generateId prefix rnd now
  = (prefix ++ "_" ++ string_slice 2 (Some 10) rnd
       ++ digits36 4 (Z.to_N now))%string.
Proof.
  intros Hnow. unfold generateId.
  destruct (toString36_low4 now Hnow) as [pre ->].
  now rewrite string_slice_last4 by apply digits36_length.
Qed.

(** X17.  For clock values of at least 36^3 = 46656 ms (every real
    [Date.now()]), [generateId] returns the same id twice exactly when the
    two calls see the same eight characters of the random string and clock
    values that are equal modulo 36^4 = 1679616 ms.  So ids made within 28
    minutes at different milliseconds always differ, and ids made at the
    same millisecond differ exactly when the random pieces do. *)
Theorem generateId_collision_iff (prefix rnd1 rnd2 : string) (now1 now2 : Z) :
  46656 <= now1 ->
  46656 <= now2 ->
  generateId prefix rnd1 now1 = generateId prefix rnd2 now2
  <-> string_slice 2 (Some 10) rnd1 = string_slice 2 (Some 10) rnd2
      /\ now1 mod 1679616 = now2 mod 1679616.
Proof.
  intros H1 H2. rewrite !generateId_eq by assumption.
  assert (Hmod : digits36 4 (Z.to_N now1) = digits36 4 (Z.to_N now2)
                 <-> now1 mod 1679616 = now2 mod 1679616).
  { rewrite digits36_mod. change (36 ^ N.of_nat 4)%N with (Z.to_N 1679616).
    rewrite <- !Z2N.inj_mod by lia.
    pose proof (Z.mod_pos_bound now1 1679616 ltac:(lia)) as B1.
    pose proof (Z.mod_pos_bound now2 1679616 ltac:(lia)) as B2.
    split; [intros E; apply Z2N.inj in E; lia|now intros ->]. }
  split.
  - intros H. apply string_app_inv_head in H. apply string_app_inv_head in H.
    apply string_app_inv_tail in H; [|now rewrite !digits36_length].
    destruct H as [Hr Hd]. split; [exact Hr|now apply Hmod].
  - intros [Hr Hd]. apply Hmod in Hd. now rewrite Hr, Hd.
Qed.

Lemma generateId_collision_iff_witness :
  generateId "player" "0.k3j9x0w2abc" 1730563200000
  <> generateId "player" "0.k3j9x0w2abc" 1730563200001.
Proof.
  intros H.
  apply (generateId_collision_iff "player" "0.k3j9x0w2abc" "0.k3j9x0w2abc"
           1730563200000 1730563200001) in H; [|lia|lia].
  destruct H as [_ H]. vm_compute in H. discriminate.
Defined.

(* ================================================================== *)
(** ** Handles of past timeouts *)

Lemma step_keeps_stale s ev h :
  (h < nextHandle s)%nat ->
  (forall gid, ~ In (h, gid) (timers s)) ->
  (h < nextHandle (fst (step s ev)))%nat
  /\ (forall gid, ~ In (h, gid) (timers (fst (step s ev)))).
Proof.
  intros Hlt Hnp.
  destruct (step_step_kind s ev) as [Ht Hn _|gid0 g0 g0' _ _ _ _ _ Ht Hn _
                                    |h0 gid0 _ Ht Hn _ _].
  - rewrite Ht, Hn. now split.
  - rewrite Ht, Hn. split; [lia|].
    intros gid Hin. apply in_app_or in Hin. destruct Hin as [Hin|[[= E _]|[]]].
    + apply (Hnp gid). destruct (timeoutHandle g0); [|exact Hin].
      now apply In_clearTimeout in Hin.
    + lia.
  - rewrite Ht, Hn. split; [exact Hlt|].
    intros gid Hin. apply In_clearTimeout in Hin. now apply (Hnp gid).
Qed.

(** X18.  Handles are not reused: a handle that [setTimeout] has returned
    and that is no longer pending (it fired, or was cleared) is never pending
    again, whatever happens next; firing it has no effect.  So the timeout of
    an earlier round cannot end a later one. *)
Theorem stale_handle_never_fires (evs : list Event) (s : State) (h : nat) (now : Z) :
  (h < nextHandle s)%nat ->
  (forall gid, ~ In (h, gid) (timers s)) ->
  (forall gid, ~ In (h, gid) (timers (fst (run s evs))))
  /\ on_timeout h now (fst (run s evs)) = (fst (run s evs), []).
Proof.
  revert s. induction evs as [|ev evs IH]; intros s Hlt Hnp.
  - simpl. split; [exact Hnp|]. unfold on_timeout.
    destruct (find _ (timers s)) as [[h' gid]|] eqn:E; [|reflexivity].
    pose proof (find_handle_fst _ _ _ _ E) as ->.
    apply find_some in E. now elim (Hnp gid).
  - rewrite run_cons. cbn [fst].
    destruct (step_keeps_stale s ev h Hlt Hnp) as [Hlt' Hnp'].
    now apply IH.
Qed.

Lemma stale_handle_never_fires_witness :
  on_timeout 0%nat 1730563240000
    (fst (run one_round_played [start_game "s1" None true 1730563220000]))
  = (fst (run one_round_played [start_game "s1" None true 1730563220000]), []).
Proof.
  apply (stale_handle_never_fires [start_game "s1" None true 1730563220000]
           one_round_played 0%nat 1730563240000).
  - vm_compute. lia.
  - intros gid Hin. vm_compute in Hin. exact Hin.
Defined.

(* ================================================================== *)
(** ** From the join to the first tap *)

Lemma set_not_empty {V} k (v : V) m : JsMap.size (JsMap.set k v m) <> 0%nat.
Proof.
  destruct m as [|[k' v'] m]; simpl; [discriminate|].
  destruct (String.eqb k' k); discriminate.
Qed.

Lemma join_then_room sock u g ack rnd now s :
  trim (or_default u "") <> "" ->
  status (game_or_new (room (or_default g "default") s)) = lobby ->
  exists game1 p,
    room (or_default g "default") (fst (on_join_game sock u g ack rnd now s))
      = Some game1
    /\ status game1 = lobby
    /\ JsMap.size (players game1) <> 0%nat
    /\ JsMap.get (generateId "player" rnd now) (players game1) = Some p
    /\ socketId p = sock
    /\ (ack = true ->
        In (Ack sock (AckJoined (generateId "player" rnd now)
                        (or_default g "default")))
           (snd (on_join_game sock u g ack rnd now s))).
Proof.
  intros Hname Hlobby.
  pose proof (on_join_game_cases sock u g ack rnd now s) as Hj. cbv zeta in Hj.
  rewrite createGameIfMissing_snd in Hj.
  destruct Hj as [[Hn _]|[(_ & Hs & _)|(_ & _ & Hj)]];
    [contradiction|contradiction|].
  rewrite Hj. cbn [fst snd]. rewrite room_set, String.eqb_refl.
  eexists _, _. split; [reflexivity|]. cbn [status players with_players].
  split; [exact Hlobby|]. split; [apply set_not_empty|].
  split; [apply JsMapFacts.get_set_same|]. split; [reflexivity|].
  intros ->. right. left. reflexivity.
Qed.

Lemma start_then_room sock g ack t0 s gid game1 pid p :
  or_default g "default" = gid ->
  room gid s = Some game1 ->
  status game1 = lobby ->
  JsMap.size (players game1) <> 0%nat ->
  JsMap.get pid (players game1) = Some p ->
  exists game2,
    room gid (fst (on_start_game sock g ack t0 s)) = Some game2
    /\ status game2 = running
    /\ startTime game2 = Some t0 /\ endTime game2 = Some (t0 + 15000)
    /\ JsMap.get pid (players game2) = Some (with_taps p 0)
    /\ In (Emit gid (game_start gid t0 15000))
          (snd (on_start_game sock g ack t0 s)).
Proof.
  intros Hg Hr Hst Hsz Hp.
  pose proof (on_start_game_cases sock g ack t0 s) as Hs. cbv zeta in Hs.
  rewrite Hg in Hs. unfold room in Hr.
  rewrite (createGameIfMissing_present _ _ _ Hr) in Hs. cbn [fst snd] in Hs.
  destruct Hs as [(_ & _ & Hs)|[[Hrun|Hz] _]];
    [|rewrite Hst in Hrun; discriminate|contradiction].
  rewrite Hs. cbn [fst snd]. eexists. split.
  - unfold room. cbn [games]. apply JsMapFacts.get_set_same.
  - cbn [status startTime endTime players].
    rewrite JsMapFacts.get_map_values, Hp.
    repeat split. now left.
Qed.

Lemma tap_then_score sock g pid t s gid game2 p st en :
  or_default g "default" = gid ->
  pid <> "" ->
  room gid s = Some game2 ->
  status game2 = running ->
  startTime game2 = Some st -> endTime game2 = Some en ->
  st <= t <= en ->
  JsMap.get pid (players game2) = Some p ->
  socketId p = sock ->
  score gid pid (fst (on_tap sock g (Some pid) t s)) = Some (taps p + 1)
  /\ snd (on_tap sock g (Some pid) t s)
     = [Emit gid (tap_update gid pid (taps p + 1))].
Proof.
  intros Hg Hpid Hr Hst Hs He Ht Hp Hsock.
  assert (Hd : or_default (Some pid) "" = pid).
  { unfold or_default. now destruct (String.eqb_spec pid ""). }
  pose proof (on_tap_cases sock g (Some pid) t s) as Htap. cbv zeta in Htap.
  rewrite Hg, Hd in Htap.
  destruct Htap as [(gm & pl & _ & Hgm & Hpl & Htap)|[Hno _]].
  - rewrite Hr in Hgm. injection Hgm as <-.
    rewrite Hp in Hpl. injection Hpl as <-.
    rewrite Htap. cbn [fst snd]. split; [|reflexivity].
    rewrite score_with_games, JsMapFacts.get_set_same.
    cbn [players with_players]. now rewrite JsMapFacts.get_set_same.
  - exfalso. apply Hno. now exists game2, p, st, en.
Qed.

(** X19.  Joining, starting and tapping compose: after a join with a name
    that is not blank on a game in the lobby (or not yet created), a start
    of that game by anybody, at server time [t0], succeeds, and a tap sent
    on the joiner's socket with the acknowledged [playerId] at any server
    time in [[t0, t0 + 15000]] is counted and broadcast as the player's
    first. *)
Theorem join_start_tap (s : State) (sock starter : string)
    (u g g2 g3 : option string) (ack ack2 : bool) (rnd : string) (now t0 t : Z) :
  let gid := or_default g "default" in
  let pid := generateId "player" rnd now in
  let evs := [join_game sock u g ack rnd now;
              start_game starter g2 ack2 t0;
              tap sock g3 (Some pid) t] in
  trim (or_default u "") <> "" ->
  status (game_or_new (room gid s)) = lobby ->
  or_default g2 "default" = gid ->
  or_default g3 "default" = gid ->
  t0 <= t <= t0 + 15000 ->
  score gid pid (fst (run s evs)) = Some 1
  /\ In (Emit gid (tap_update gid pid 1)) (snd (run s evs))
  /\ In (Emit gid (game_start gid t0 15000)) (snd (run s evs))
  /\ (ack = true -> In (Ack sock (AckJoined pid gid)) (snd (run s evs))).
Proof.
  intros gid pid evs Hname Hlobby Hg2 Hg3 Ht. subst evs.
  destruct (join_then_room sock u g ack rnd now s Hname Hlobby)
    as (game1 & p & Hr1 & Hst1 & Hsz1 & Hp1 & Hsock & Hack).
  fold gid pid in Hr1, Hp1, Hack.
  set (s1 := fst (on_join_game sock u g ack rnd now s)) in *.
  destruct (start_then_room starter g2 ack2 t0 s1 gid game1 pid p
              Hg2 Hr1 Hst1 Hsz1 Hp1)
    as (game2 & Hr2 & Hst2 & Hs2 & He2 & Hp2 & Hstart).
  set (s2 := fst (on_start_game starter g2 ack2 t0 s1)) in *.
  assert (Hpid : pid <> "") by apply generateId_not_empty.
  destruct (tap_then_score sock g3 pid t s2 gid game2 (with_taps p 0)
              t0 (t0 + 15000) Hg3 Hpid Hr2 Hst2 Hs2 He2 Ht Hp2 Hsock)
    as [Hscore Hout].
  rewrite !run_cons. cbn [step run fst snd].
  fold s1. fold s2. rewrite app_nil_r.
  split; [exact Hscore|]. split; [|split].
  - apply in_or_app. right. apply in_or_app. right. rewrite Hout. now left.
  - apply in_or_app. right. apply in_or_app. now left.
  - intros Hack'. apply in_or_app. left. now apply Hack.
Qed.

Lemma join_start_tap_witness :
  let pid := generateId "player" "0.7fq2m1c9xyz" 1730563200000 in
  score "default" pid
    (fst (run initial_state
            [join_game "s2" (Some " Bob ") None true "0.7fq2m1c9xyz" 1730563200000;
             start_game "s9" None false 1730563201000;
             tap "s2" None (Some pid) 1730563216000]))
  = Some 1.
Proof.
  assert (Hname : trim (or_default (Some " Bob ") "") <> "")
    by (vm_compute; discriminate).
  assert (Ht : 1730563201000 <= 1730563216000 <= 1730563201000 + 15000) by lia.
  exact (proj1 (join_start_tap initial_state "s2" "s9" (Some " Bob ")
                  None None None true false "0.7fq2m1c9xyz"
                  1730563200000 1730563201000 1730563216000
                  Hname eq_refl eq_refl eq_refl Ht)).
Defined.

(* ================================================================== *)
(** ** The end of a round happens once *)





(* ================================================================== *)
(** ** Ranking and join order *)

(** C4, as stated, fails.  Alice, Bob and Carol join in this order and each
    join is acknowledged; Carol's id is Alice's, so her entry takes Alice's
    place in the roster, ahead of Bob's.  Nobody taps, and the results that
    the round broadcasts rank Carol first and Bob second: on equal scores
    the later-joined player comes first. *)
Lemma late_join_counterexample :
  let out := snd (run initial_state late_join_collides) in
  let idA := generateId "player" "0.k3j9x0w2abc" 1730563200000 in
  let idB := generateId "player" "0.7fq2m1c9xyz" 1730563200000 in
  reachable (fst (run initial_state late_join_collides))
  /\ List.map (fun o => match o with
                        | Ack sock (AckJoined pid _) => Some (sock, pid)
                        | _ => None
                        end)
       (firstn 3 (acks out))
     = [Some ("s1", idA); Some ("s2", idB); Some ("s3", idA)]
  /\ exists st en ranked first,
       In (Emit "default" (game_results "default" st en TAP_WINDOW_MS ranked first)) out
       /\ List.map line_of_score ranked = [(idA, "Carol", 0); (idB, "Bob", 0)]
       /\ option_map line_of_score first = Some (idA, "Carol", 0).
Proof.
  intros out idA idB. split; [|split].
  - apply reachable_run. constructor.
  - vm_compute. reflexivity.
  - do 4 eexists. split; [|split].
    + vm_compute. do 8 right. left. reflexivity.
    + vm_compute. reflexivity.
    + vm_compute. reflexivity.
Qed.

Lemma StronglySorted_map {A B} (f : A -> B) (R : B -> B -> Prop) l :
  StronglySorted (fun a b => R (f a) (f b)) l -> StronglySorted R (List.map f l).
Proof.
  induction 1 as [|a l _ IH Hall]; simpl; constructor; [exact IH|].
  apply Forall_map. exact Hall.
Qed.

Lemma filter_map_comm {A B} (f : A -> B) (p : B -> bool) l :
  filter p (List.map f l) = List.map f (filter (fun a => p (f a)) l).
Proof.
  induction l as [|a l IH]; simpl; [reflexivity|].
  destruct (p (f a)); simpl; now rewrite IH.
Qed.

Lemma hd_error_map {A B} (f : A -> B) l :
  List.hd_error (List.map f l) = option_map f (List.hd_error l).
Proof. now destruct l. Qed.

(** The lines of the score objects that [computeResults] builds are the
    lines of the roster entries. *)
Lemma roster_scores_lines game :
  List.map line_of_score (roster_scores game) = roster_lines game.
Proof.
  unfold roster_scores, roster_lines. rewrite map_map.
  apply map_ext. intros p. reflexivity.
Qed.

Lemma set_present_split {V} k (v v0 : V) (m : JsMap.t V) :
  JsMap.get k m = Some v0 ->
  exists before after,
    m = before ++ (k, v0) :: after /\ JsMap.set k v m = before ++ (k, v) :: after.
Proof.
  induction m as [|[k' v'] m IH]; simpl; [discriminate|].
  destruct (String.eqb_spec k' k) as [->|Hne].
  - intros [= ->]. now exists [], m.
  - intros H. destruct (IH H) as (before & after & -> & ->).
    now exists ((k', v') :: before), after.
Qed.

Lemma delete_split {V} k (m : JsMap.t V) :
  JsMap.delete k m = m
  \/ exists before e after, m = before ++ e :: after /\ JsMap.delete k m = before ++ after.
Proof.
  induction m as [|[k' v'] m IH]; simpl; [now left|].
  destruct (String.eqb k' k).
  - right. now exists [], (k', v'), m.
  - destruct IH as [->|(before & e & after & -> & ->)]; [now left|].
    right. now exists ((k', v') :: before), e, after.
Qed.

Lemma holders_set_same k (p p0 : Player) (m : JsMap.t Player) :
  JsMap.get k m = Some p0 ->
  username p = username p0 -> socketId p = socketId p0 ->
  List.map entry_holder (JsMap.set k p m) = List.map entry_holder m.
Proof.
  induction m as [|[k' v'] m IH]; simpl; [discriminate|].
  destruct (String.eqb_spec k' k) as [->|Hne]; simpl.
  - intros [= ->] Hu Hs. unfold entry_holder. simpl. now rewrite Hu, Hs.
  - intros H Hu Hs. f_equal. now apply IH.
Qed.

Lemma holders_map_values (f : Player -> Player) (m : JsMap.t Player) :
  (forall p, username (f p) = username p /\ socketId (f p) = socketId p) ->
  List.map entry_holder (JsMap.map_values f m) = List.map entry_holder m.
Proof.
  intros Hf. unfold JsMap.map_values. rewrite map_map.
  apply map_ext. intros [k p]. unfold entry_holder. simpl.
  destruct (Hf p) as [-> ->]. reflexivity.
Qed.

Lemma room_change_roster_order s gid g ev r' :
  room_change s gid (Some g) ev r' ->
  exists g', r' = Some g' /\ roster_order ev g g'.
Proof.
  intros Hc.
  inversion Hc as [ev0|? ? ? ? Hr0|sock u gg ack rnd now Hg Hn Hst
                  |? ? ? ? game0 Hr0|? ? ? ? game0 player Hr0 ? ? Hp
                  |sock game0 Hr0|? ? ? game0 Hr0]; subst;
    try discriminate; try (injection Hr0 as <-).
  - exists g. split; [reflexivity|]. now apply ro_kept.
  - eexists. split; [reflexivity|]. simpl.
    destruct (JsMap.get (generateId "player" rnd now) (players g)) as [old|] eqn:E.
    + destruct (set_present_split _
                  {| playerId := generateId "player" rnd now;
                     username := trim (or_default u "");
                     socketId := sock; taps := 0 |} old _ E)
        as (before & after & Hm & Hset).
      eapply ro_replaced; [reflexivity|exact Hm|exact Hset].
    + eapply ro_appended; [reflexivity|exact E|]. simpl.
      now apply JsMapFacts.set_absent.
  - eexists. split; [reflexivity|]. apply ro_kept. simpl.
    apply holders_map_values. intros p. now split.
  - eexists. split; [reflexivity|]. apply ro_kept. simpl.
    now apply holders_set_same with (p0 := player).
  - eexists. split; [reflexivity|]. unfold disconnect_game.
    destruct (find_removed sock (players g)) as [pid|]; simpl;
      [|now apply ro_kept].
    destruct (String.eqb pid ""); simpl; [now apply ro_kept|].
    destruct (delete_split pid (players g))
      as [Hsame|(before & e & after & Hm & Hdel)].
    + apply ro_kept. simpl. now rewrite Hsame.
    + eapply ro_removed; [reflexivity|exact Hm|exact Hdel].
  - eexists. split; [reflexivity|]. now apply ro_kept.
Qed.

(** C4, amended.  [computeResults] returns one line (playerId, displayName,
    score) per roster entry, sorted by score, highest first; lines with
    equal scores stay in the order their entries have in the roster; the
    winner is the first line of the ranking, has the highest score, is the
    first entry of the roster with that score, and is absent exactly when the
    roster is empty; the result is a function of the roster alone.  The order
    of the roster is the join order as long as ids do not repeat: an event
    either leaves the holders of the entries where they are, or is an
    accepted join with an id that the roster does not hold, whose entry goes
    to the end, or is a disconnect that takes one entry out, or is an
    accepted join with an id that the roster holds, whose entry takes the
    place of the entry with that id. *)
Theorem computeResults_ranking (game : Game) :
  let ranked := List.map line_of_score (fst (computeResults game)) in
  let first := option_map line_of_score (snd (computeResults game)) in
  let roster := roster_lines game in
  StronglySorted (fun a b => line_taps a >= line_taps b) ranked
  /\ Permutation ranked roster
  /\ (forall k, filter (with_taps_of k) ranked = filter (with_taps_of k) roster)
  /\ first = List.hd_error ranked
  /\ (snd (computeResults game) = None <-> players game = [])
  /\ (forall w, first = Some w ->
        (forall a, In a roster -> line_taps a <= line_taps w) /\
        List.hd_error (filter (with_taps_of (line_taps w)) roster) = Some w)
  /\ (forall game', players game' = players game ->
        computeResults game' = computeResults game)
  /\ (forall s ev gid g, room gid s = Some g ->
        exists g', room gid (fst (step s ev)) = Some g' /\ roster_order ev g g').
Proof.
  intros ranked first roster.
  assert (Hsorted : StronglySorted (fun a b => line_taps a >= line_taps b) ranked).
  { apply StronglySorted_map. apply (computeResults_sorted game). }
  assert (Hperm : Permutation ranked roster).
  { subst ranked roster. rewrite <- roster_scores_lines.
    apply Permutation_map. apply array_sort_perm. }
  assert (Hstable : forall k, filter (with_taps_of k) ranked
                              = filter (with_taps_of k) roster).
  { intros k. subst ranked roster. rewrite <- roster_scores_lines.
    rewrite !filter_map_comm. f_equal. apply filter_array_sort.
    unfold with_taps_of, line_taps, line_of_score, by_taps_desc. simpl.
    intros a b Ha Hb. lia. }
  assert (Hfirst : first = List.hd_error ranked).
  { subst first ranked. now rewrite hd_error_map. }
  repeat split; trivial.
  - unfold computeResults. simpl. intros H.
    destruct (array_sort by_taps_desc _) eqn:E; [|discriminate].
    apply array_sort_nil_iff in E.
    unfold JsMap.values in E.
    destruct (players game); [reflexivity|discriminate].
  - intros H. unfold computeResults. simpl. now rewrite H.
  - intros a Ha. rewrite Hfirst in H.
    destruct ranked as [|w' rest]; [discriminate|].
    injection H as ->.
    apply (Permutation_in _ (Permutation_sym Hperm)) in Ha.
    destruct Ha as [->|Ha]; [lia|].
    apply StronglySorted_inv in Hsorted. destruct Hsorted as [_ Hall].
    rewrite Forall_forall in Hall. specialize (Hall a Ha). lia.
  - rewrite <- Hstable. rewrite Hfirst in H.
    destruct ranked as [|w' rest]; [discriminate|].
    injection H as ->. simpl. unfold with_taps_of at 1. now rewrite Z.eqb_refl.
  - intros game' Hp. unfold computeResults. now rewrite Hp.
  - intros s ev gid g Hr. apply (room_change_roster_order s gid).
    rewrite <- Hr. apply step_room_change.
Qed.

Lemma computeResults_ranking_witness :
  let game := game_or_new (room "default" (fst (run initial_state three_players_run))) in
  List.map (fun l => (snd (fst l), line_taps l))
    (List.map line_of_score (fst (computeResults game)))
  = [("Bob", 1); ("Alice", 0); ("Carol", 0)]
  /\ List.map (fun l => (snd (fst l), line_taps l))
       (filter (with_taps_of 0) (List.map line_of_score (fst (computeResults game))))
     = [("Alice", 0); ("Carol", 0)].
Proof.
  intros game. split; [vm_compute; reflexivity|].
  destruct (computeResults_ranking game) as (_ & _ & Hstable & _).
  rewrite (Hstable 0). vm_compute. reflexivity.
Defined.
